(** * staplelib.commands: selection plans of the stapler commands

  A shallow embedding of [staplelib/commands.py]: the round-robin
  generator behind [zip], the page selection of [select] and [delete],
  and the output names of [split]. *)

From Stdlib Require Import Ascii String.
From stdpp Require Import base option list list_numbers sorting sets gmap strings pretty.

Open Scope Z_scope.

(** ** itertools: [cycle], [islice] and the generator expression

  The iterator objects [round_robin_list] builds.  List iterators live
  in a heap (a list of the elements each one has still to give) and are
  named by their index: the same list iterator is reached through
  several nested [cycle] objects, so the objects hold handles, never
  copies. *)
Module Itertools.
Section Iterators.
Context {T : Type}.

(** [handle]: the identity of a list iterator [iter(it)]; [heap]: what
    each list iterator has still to give. *)
Abbreviation handle := nat (only parsing).
Abbreviation heap := (list (list T)) (only parsing).

Local Unset Elimination Schemes.
Inductive iterobj :=
  (* (iter(it) for it in iterables): the lists not yet reached *)
  | GenExpr (rest : list (list T))
  (* itertools.cycle: the source (dropped once exhausted), the saved
     items, the read position in them *)
  | Cycle (it : option iterobj) (saved : list handle) (index : nat)
  (* itertools.islice(it, stop): how many items are still to pass *)
  | ISlice (it : iterobj) (remaining : nat).
Local Set Elimination Schemes.

(** [next(o)]: [None] is StopIteration.  Advancing the generator
    expression allocates the next list iterator. *)
Fixpoint iter_next (o : iterobj) (h : heap) : option handle * iterobj * heap :=
  match o with
  | GenExpr [] => (None, GenExpr [], h)
  | GenExpr (l :: rest) => (Some (length h), GenExpr rest, h ++ [l])
  | ISlice it 0%nat => (None, ISlice it 0%nat, h)
  | ISlice it (S r) =>
      match iter_next it h with
      | (Some x, it', h') => (Some x, ISlice it' r, h')
      | (None, it', h') => (None, ISlice it' 0%nat, h')
      end
  | Cycle None saved index =>
      match saved !! index with
      | None => (None, Cycle None saved index, h)
      | Some x =>
          (Some x,
           Cycle None saved
             (if decide (S index < length saved)%nat then S index else 0%nat), h)
      end
  | Cycle (Some it) saved index =>
      match iter_next it h with
      | (Some x, it', h') => (Some x, Cycle (Some it') (saved ++ [x]) index, h')
      | (None, _, h') =>
          match saved !! index with
          | None => (None, Cycle None saved index, h')
          | Some x =>
              (Some x,
               Cycle None saved
                 (if decide (S index < length saved)%nat then S index else 0%nat), h')
          end
      end
  end.

(** [next(it)] on a list iterator. *)
Definition list_next (x : handle) (h : heap) : option (option T * heap) :=
  match h !! x with
  | None => None
  | Some [] => Some (None, h)
  | Some (v :: l) => Some (Some v, <[x := l]> h)
  end.
End Iterators.
Arguments iterobj : clear implicits.
Abbreviation handle := nat (only parsing).
Abbreviation heap T := (list (list T)) (only parsing).
End Itertools.

(** ** round_robin_list *)
Module RoundRobin.
Import Itertools.
Section Generator.
Context {T : Type}.

(** The generator's frame: where it is suspended or running, and its
    locals. *)
Inductive pc := AtWhile | AtFor.

Record frame := Frame {
  at_pc : pc;
  pending : nat;
  cycled_iterables : iterobj T;
  iters : heap T
}.

Inductive event :=
  | Yield (v : T)     (* yield next(it) *)
  | Silent            (* control moved, nothing yielded *)
  | Return            (* the generator is finished *)
  | Wrong.            (* a handle naming no iterator *)

(** pending = len(iterables); cycled_iterables = cycle(iter(it) for ...) *)
Definition start (iterables : list (list T)) : frame :=
  Frame AtWhile (length iterables) (Cycle (Some (GenExpr iterables)) [] 0%nat) [].

Definition step (s : frame) : event * frame :=
  match at_pc s with
  | AtWhile =>
      (* while pending: *)
      match pending s with
      | O => (Return, s)
      | S _ => (Silent, Frame AtFor (pending s) (cycled_iterables s) (iters s))
      end
  | AtFor =>
      (* for it in cycled_iterables: *)
      match iter_next (cycled_iterables s) (iters s) with
      | (None, c, h) => (Silent, Frame AtWhile (pending s) c h)
      | (Some it, c, h) =>
          match list_next it h with
          | None => (Wrong, s)
          | Some (Some v, h') => (Yield v, Frame AtFor (pending s) c h')
          | Some (None, h') =>
              (* except StopIteration: *)
              let pending' := (pending s - 1)%nat in
              (Silent, Frame AtWhile pending' (Cycle (Some (ISlice c pending')) [] 0%nat) h')
          end
      end
  end.

(** list(gen): run the generator to its end, collecting what it yields. *)
Fixpoint drain (fuel : nat) (s : frame) : option (list T) :=
  match fuel with
  | O => None
  | S fuel =>
      match step s with
      | (Yield v, s') => cons v <$> drain fuel s'
      | (Silent, s') => drain fuel s'
      | (Return, _) => Some []
      | (Wrong, _) => None
      end
  end.

Definition round_robin_list (fuel : nat) (iterables : list (list T)) : option (list T) :=
  drain fuel (start iterables).

(** Steps that always suffice: one per item, two per list that runs
    dry, one for the last test of [pending]. *)
Definition cost (q : list (list T)) : nat :=
  sum_list ((λ l, S (S (length l))) <$> q).

Definition enough (iterables : list (list T)) : nat := S (cost iterables).

(** *** What the claim says, in its own words

    One element from each still-nonempty list, left to right, again
    and again until every list is empty. *)
Definition tail_of (l : list T) : option (list T) :=
  match l with [] => None | _ :: t => Some t end.

Fixpoint rounds (n : nat) (ls : list (list T)) : list T :=
  match n with
  | O => []
  | S n => omap head ls ++ rounds n (omap tail_of ls)
  end.

Definition interleave (ls : list (list T)) : list T :=
  rounds (max_list (length <$> ls)) ls.


(** *** The queue the nested cycles stand for

    [rep o n L R]: with [n] list iterators allocated, object [o] will
    give the handles [L] (a finite object once, a cycle again and
    again), and [R] are the lists its generator expression has still
    to wrap. *)
Definition is_cycle (o : iterobj T) : bool :=
  match o with Cycle _ _ _ => true | _ => false end.

Inductive rep : iterobj T → nat → list handle → list (list T) → Prop :=
  | rep_gen rest n :
      rep (GenExpr rest) n (seq n (length rest)) rest
  | rep_slice c r n L R :
      rep c n L R → is_cycle c = true →
      (length R ≤ r)%nat → (r ≤ length L)%nat →
      rep (ISlice c r) n (take r L) R
  | rep_live u saved n P R :
      rep u n P R → is_cycle u = false →
      NoDup (P ++ saved) → Forall (λ x, x < n)%nat saved →
      rep (Cycle (Some u) saved 0%nat) n (P ++ saved) R
  | rep_saved saved index n :
      (index < length saved)%nat →
      NoDup saved → Forall (λ x, x < n)%nat saved →
      rep (Cycle None saved index) n (drop index saved ++ take index saved) [].

Definition turn (o : iterobj T) (x : handle) (xs : list handle) : list handle :=
  if is_cycle o then xs ++ [x] else xs.

(** The run of the queue: a dry list leaves, any other gives its head
    and goes to the back. *)
Inductive qsteps : list (list T) → list T → Prop :=
  | qs_nil : qsteps [] []
  | qs_dry q out : qsteps q out → qsteps ([] :: q) out
  | qs_item v l q out : qsteps (q ++ [l]) out → qsteps ((v :: l) :: q) (v :: out).

End Generator.
Arguments frame : clear implicits.

End RoundRobin.

(** ** The commands *)
Module Commands.
Import RoundRobin.

(** Exceptions.  A [CommandError] carries its message, or the exception
    it was raised from ([raise CommandError(e)]). *)
Inductive exn :=
  | CommandError (why : reason)
  | IndexError                     (* list index out of range *)
  | ValueError                     (* math domain error, bad format character *)
  | TypeError                      (* arguments and format do not match *)
  | LibraryError (what : string)   (* raised inside iohelper *)
with reason :=
  | BothRequired                   (* "Both input and output filenames are required." *)
  | NoInputFiles                   (* "No input files specified." *)
  | PageNotFound (pageno : Z) (name : string)   (* "Page {} not found in {}." *)
  | Caused (e : exn).

Inductive result (A : Type) :=
  | Ok (a : A)
  | Raise (e : exn).
Arguments Ok {A} a.
Arguments Raise {A} e.

(** iohelper.ROTATION_NONE *)
Definition ROTATION_NONE : Z := 0.

(** The document library is outside this module.  Of a reader only the
    page count matters here; a page is named by its file, its 0-based
    index and the rotation asked of it. *)
Record PdfFileReader := { stream : string; getNumPages : Z }.

Record page := Page { source : string; index : Z; rotation : Z }.

(** One entry of [iohelper.parse_ranges]. *)
Record input_args := InputArgs {
  name : string;
  pdf : PdfFileReader;
  pages : list (Z * Z)
}.

Definition getPage (pdf : PdfFileReader) (i : Z) : page := Page (stream pdf) i 0.

Definition rotateClockwise (p : page) (angle : Z) : page :=
  Page (source p) (index p) (rotation p + angle).

(** range(lo, hi) *)
Definition range (lo hi : Z) : list Z := seqZ lo (hi - lo).

(** input_args['pages'] or [(p, ROTATION_NONE) for p in range(1, n + 1)] *)
Definition pagerange_inclusive (a : input_args) : list (Z * Z) :=
  match pages a with
  | [] => (λ p, (p, ROTATION_NONE)) <$> range 1 (getNumPages (pdf a) + 1)
  | _ :: _ => pages a
  end.

(** excluded = [p for p, r in input_args['pages']]
    [(p, ROTATION_NONE) for p in range(1, n + 1) if p not in excluded] *)
Definition pagerange_exclusive (a : input_args) : list (Z * Z) :=
  let excluded := fst <$> pages a in
  (λ p, (p, ROTATION_NONE)) <$>
    filter (λ p, p ∉ excluded) (range 1 (getNumPages (pdf a) + 1)).

Definition pagerange (inverse : bool) (a : input_args) : list (Z * Z) :=
  if inverse then pagerange_exclusive a else pagerange_inclusive a.

(** select: for pageno, rotate in pagerange, onto the one writer. *)
Fixpoint select_pages (a : input_args) (pagerange : list (Z * Z))
    (output : list page) : result (list page) :=
  match pagerange with
  | [] => Ok output
  | (pageno, rotate) :: pagerange =>
      if bool_decide (1 ≤ pageno ≤ getNumPages (pdf a)) then
        select_pages a pagerange
          (output ++ [rotateClockwise (getPage (pdf a) (pageno - 1)) rotate])
      else Raise (CommandError (PageNotFound pageno (name a)))
  end.

(** select: for input_args in filesandranges *)
Fixpoint select_files (inverse : bool) (filesandranges : list input_args)
    (output : list page) : result (list page) :=
  match filesandranges with
  | [] => Ok output
  | a :: filesandranges =>
      match select_pages a (pagerange inverse a) output with
      | Ok output => select_files inverse filesandranges output
      | Raise e => Raise e
      end
  end.

(** zip_pdfs: for pageno, rotate in pagerange, onto pagestozip. *)
Fixpoint zip_pages (a : input_args) (pagerange : list (Z * Z))
    (pagestozip : list page) : result (list page) :=
  match pagerange with
  | [] => Ok pagestozip
  | (pageno, rotate) :: pagerange =>
      if bool_decide (1 ≤ pageno ≤ getNumPages (pdf a)) then
        zip_pages a pagerange
          (pagestozip ++ [rotateClockwise (getPage (pdf a) (pageno - 1)) rotate])
      else Raise (CommandError (PageNotFound pageno (name a)))
  end.

(** zip_pdfs: for input_args in filesandranges *)
Fixpoint zip_files (filesandranges : list input_args)
    (filestozip : list (list page)) : result (list (list page)) :=
  match filesandranges with
  | [] => Ok filestozip
  | a :: filesandranges =>
      match zip_pages a (pagerange_inclusive a) [] with
      | Ok pagestozip => zip_files filesandranges (filestozip ++ [pagestozip])
      | Raise e => Raise e
      end
  end.

(** *** The page objects as the library has them

    [getPage] hands out the reader's own page object, the same one at
    every call, and [rotateClockwise] turns that object in place and
    returns it; the writer keeps references, and the file is written
    after the loop.  So [select_pages] above records the calls made, and
    the loop below keeps the objects: [turned] is by how much each page
    object of the reader has been turned so far (by index; a page not
    turned yet is absent), and the writer holds the indices of the pages
    added, in order. *)
Definition rotate_in_place (i angle : Z) (turned : gmap Z Z) : gmap Z Z :=
  <[i := default 0 (turned !! i) + angle]> turned.

Fixpoint select_pages_in_place (a : input_args) (pagerange : list (Z * Z))
    (output : list Z) (turned : gmap Z Z) : result (list Z * gmap Z Z) :=
  match pagerange with
  | [] => Ok (output, turned)
  | (pageno, rotate) :: pagerange =>
      if bool_decide (1 ≤ pageno ≤ getNumPages (pdf a)) then
        select_pages_in_place a pagerange (output ++ [pageno - 1])
          (rotate_in_place (pageno - 1) rotate turned)
      else Raise (CommandError (PageNotFound pageno (name a)))
  end.

(** What is written for the pages added: each as its object is by then. *)
Definition written (a : input_args) (output : list Z) (turned : gmap Z Z) : list page :=
  (λ i, Page (stream (pdf a)) i (default 0 (turned !! i))) <$> output.

(** The rotation an expression asks of page [p], all its occurrences
    together. *)
Definition asked (prs : list (Z * Z)) (p : Z) : Z :=
  foldr Z.add 0 (snd <$> filter (λ pr, pr.1 = p) prs).

(** The files written, oldest first: path and pages. *)
Abbreviation disk := (list (string * list page)) (only parsing).

Definition write_pdf (output : list page) (path : string) (fs : disk) : disk :=
  fs ++ [(path, output)].

(** math.ceil(math.log10(n)), as the exact value: the least [k] with
    [n ≤ 10 ^ k].  [math.log10] raises ValueError off its domain.  The
    program computes in floating point; the exact value is what it gets
    for the page counts the theorems are stated for (up to 10^9), not for
    every integer (it rounds down at 10^15 + 1). *)
Fixpoint ceil_log10_from (fuel : nat) (k : Z) (n : Z) : Z :=
  match fuel with
  | O => k
  | S fuel => if bool_decide (n ≤ 10 ^ k) then k else ceil_log10_from fuel (k + 1) n
  end.

Definition ceil_log10 (n : Z) : result Z :=
  if bool_decide (n ≤ 0) then Raise ValueError
  else Ok (ceil_log10_from (S (Z.to_nat (Z.log2 n))) 0 n).

(** [template % k] for one integer [k ≥ 0], over the directives
    [%%] and [%<flags 0><width>d].  Any other directive is outside this
    model: it is reported as ValueError here, also where Python would
    convert it or raise TypeError. *)
Inductive directive :=
  | Text                              (* outside a directive *)
  | Flags (zero : bool)               (* after "%", reading flags *)
  | Width (zero : bool) (width : nat) (* reading the width *).

Definition digit_of (c : ascii) : option nat :=
  let n := nat_of_ascii c in
  if bool_decide (48 ≤ n ≤ 57)%nat then Some (n - 48)%nat else None.

Fixpoint repeat_char (n : nat) (c : ascii) (s : string) : string :=
  match n with O => s | S n => String c (repeat_char n c s) end.

Definition padded (zero : bool) (width : nat) (digits : string) : string :=
  repeat_char (width - String.length digits) (if zero then "0" else " ")%char digits.

Fixpoint format_from (d : directive) (used : bool) (k : Z) (template : string) :
    result string :=
  let convert zero width rest :=
    if used then Raise TypeError      (* not enough arguments *)
    else match format_from Text true k rest with
         | Ok s => Ok (padded zero width (pretty k) +:+ s)
         | Raise e => Raise e
         end in
  match template with
  | EmptyString =>
      match d with
      | Text => if used then Ok EmptyString else Raise TypeError
      | _ => Raise ValueError         (* incomplete format *)
      end
  | String c rest =>
      match d with
      | Text =>
          if bool_decide (c = "%"%char) then format_from (Flags false) used k rest
          else match format_from Text used k rest with
               | Ok s => Ok (String c s)
               | Raise e => Raise e
               end
      | Flags zero =>
          if bool_decide (c = "%"%char) then
            if zero then Raise ValueError
            else match format_from Text used k rest with
                 | Ok s => Ok (String "%" s)
                 | Raise e => Raise e
                 end
          else if bool_decide (c = "0"%char) then format_from (Flags true) used k rest
          else if bool_decide (c = "d"%char) then convert zero 0%nat rest
          else match digit_of c with
               | Some n => format_from (Width zero n) used k rest
               | None => Raise ValueError
               end
      | Width zero width =>
          if bool_decide (c = "d"%char) then convert zero width rest
          else match digit_of c with
               | Some n => format_from (Width zero (10 * width + n)) used k rest
               | None => Raise ValueError
               end
      end
  end.

Definition format (template : string) (k : Z) : result string :=
  format_from Text false k template.

(** args[:-1] *)
Definition but_last (args : list string) : list string :=
  take (length args - 1) args.

(** *** Reading a plan

    The 1-based page number and the rotation of each page handed to the
    writer, and the bounds test of the two loops. *)
Definition described (plan : list page) : list (Z * Z) :=
  (λ pg, (index pg + 1, rotation pg)) <$> plan.

Definition in_bounds (a : input_args) (pr : Z * Z) : Prop :=
  1 ≤ pr.1 ≤ getNumPages (pdf a).

Definition emit (a : input_args) (pr : Z * Z) : page :=
  rotateClockwise (getPage (pdf a) (pr.1 - 1)) pr.2.

(** The page numbers an expression names, and those [delete] keeps. *)
Definition excluded (a : input_args) : list Z := fst <$> pages a.
Definition included (a : input_args) : list Z := fst <$> pagerange_exclusive a.

(** The entry with the numbers outside the document taken out of its
    expression. *)
Definition within (a : input_args) : input_args :=
  InputArgs (name a) (pdf a)
    (filter (λ pr, 1 ≤ pr.1 ≤ getNumPages (pdf a)) (pages a)).

Section Command.
(** What the commands take from [iohelper], [os.path] and
    [staplelib.OPTIONS]. *)
Variable parse_ranges : list string → result (list input_args).
Variable check_output_file : string → result unit.
Variable isabs : string → bool.
Variable destdir : string.
Variable sep : string.

Definition output_path (outputfilename : string) : string :=
  if isabs outputfilename then outputfilename
  else destdir +:+ sep +:+ outputfilename.

(** not filesandranges or not outputfilename *)
Definition missing (filesandranges : list input_args) (outputfilename : string) : bool :=
  bool_decide (filesandranges = []) || bool_decide (outputfilename = "").

Definition select (args : list string) (inverse : bool) (fs : disk) :
    result unit * disk :=
  match parse_ranges (but_last args) with
  | Raise e => (Raise e, fs)
  | Ok filesandranges =>
  match last args with
  | None => (Raise IndexError, fs)
  | Some outputfilename =>
  if missing filesandranges outputfilename then
    (Raise (CommandError BothRequired), fs)
  else
  match check_output_file outputfilename with
  | Raise e => (Raise e, fs)
  | Ok _ =>
  match select_files inverse filesandranges [] with
  | Raise e => (Raise (CommandError (Caused e)), fs)
  | Ok output => (Ok (), write_pdf output (output_path outputfilename) fs)
  end end end end.

Definition delete (args : list string) (fs : disk) : result unit * disk :=
  select args true fs.

(** [None]: the generator was given too little fuel. *)
Definition zip_pdfs (fuel : nat) (args : list string) (fs : disk) :
    option (result unit * disk) :=
  match parse_ranges (but_last args) with
  | Raise e => Some (Raise e, fs)
  | Ok filesandranges =>
  match last args with
  | None => Some (Raise IndexError, fs)
  | Some outputfilename =>
  if missing filesandranges outputfilename then
    Some (Raise (CommandError BothRequired), fs)
  else
  match zip_files filesandranges [] with
  | Raise e => Some (Raise (CommandError (Caused e)), fs)
  | Ok filestozip =>
  match round_robin_list fuel filestozip with
  | None => None
  | Some output => Some (Ok (), write_pdf output (output_path outputfilename) fs)
  end end end end.


(** split: what [iohelper] and [os.path] give it. *)
Variable expand_input_files : list string → list string.
Variable read_pdf : string → result PdfFileReader.
Variable splitext_basename : string → string * string.

(** for f in files: inputs.append(iohelper.read_pdf(f)) *)
Fixpoint read_inputs (files : list string) (inputs : list PdfFileReader) :
    result (list PdfFileReader) :=
  match files with
  | [] => Ok inputs
  | f :: files =>
      match read_pdf f with
      | Ok input_file => read_inputs files (inputs ++ [input_file])
      | Raise e => Raise e
      end
  end.

(** ''.join([base, '_', '%0', str(...), 'd', ext]) *)
Definition output_template (base : string) (width : Z) (ext : string) : string :=
  base +:+ "_" +:+ "%0" +:+ pretty width +:+ "d" +:+ ext.

(** for pageno in range(input_file.getNumPages()) *)
Fixpoint split_pages (input_file : PdfFileReader) (template : string)
    (pagenos : list Z) (fs : disk) : result unit * disk :=
  match pagenos with
  | [] => (Ok (), fs)
  | pageno :: pagenos =>
      let output := [getPage input_file pageno] in
      match format template (pageno + 1) with
      | Raise e => (Raise e, fs)
      | Ok outputname =>
          split_pages input_file template pagenos
            (write_pdf output (destdir +:+ sep +:+ outputname) fs)
      end
  end.

(** for input_file in inputs *)
Fixpoint split_inputs (files : list string) (inputs : list PdfFileReader)
    (filecount : nat) (fs : disk) : result unit * disk :=
  match inputs with
  | [] => (Ok (), fs)
  | input_file :: inputs =>
      match files !! filecount with
      | None => (Raise IndexError, fs)
      | Some f =>
          let '(base, ext) := splitext_basename f in
          match ceil_log10 (getNumPages input_file) with
          | Raise e => (Raise e, fs)
          | Ok width =>
              match split_pages input_file (output_template base width ext)
                      (range 0 (getNumPages input_file)) fs with
              | (Ok _, fs) => split_inputs files inputs (S filecount) fs
              | (Raise e, fs) => (Raise e, fs)
              end
          end
      end
  end.

Definition split (args : list string) (fs : disk) : result unit * disk :=
  let files := expand_input_files args in
  match files with
  | [] => (Raise (CommandError NoInputFiles), fs)
  | _ :: _ =>
      match read_inputs files [] with
      | Raise e => (Raise (CommandError (Caused e)), fs)
      | Ok inputs => split_inputs files inputs 0 fs
      end
  end.

(** info: the guard on its inputs; the metadata it prints is not
    modelled. *)
Definition info (args : list string) : result unit :=
  let files := expand_input_files args in
  match files with
  | [] => Raise (CommandError NoInputFiles)
  | _ :: _ => Ok ()
  end.
End Command.
End Commands.

(** ** The round-robin generator yields the rounds of its input *)
Module Sequencer.
Import Itertools RoundRobin.
Section Facts.
Context {T : Type}.
Implicit Types (o c u : iterobj T) (h : heap T) (q ls : list (list T)).

Lemma rep_NoDup o n L R : rep o n L R → NoDup L.
Proof.
  induction 1 as [rest n|c r n L R _ IH _ _ _|u saved n P R _ _ _ Hnd _|saved i n _ Hnd _].
  - apply NoDup_seq.
  - eapply sublist_NoDup; [exact IH|apply sublist_take].
  - done.
  - by rewrite Permutation_app_comm, take_drop.
Qed.

Lemma rep_pending o n L R : rep o n L R → (length R ≤ length L)%nat.
Proof.
  induction 1; simpl; rewrite ?length_seq, ?length_take, ?length_app; lia.
Qed.

Lemma cycle_saved_next (saved : list handle) index x xs :
  (index < length saved)%nat →
  drop index saved ++ take index saved = x :: xs →
  ∃ index',
    index' = (if decide (S index < length saved)%nat then S index else 0%nat) ∧
    saved !! index = Some x ∧
    (index' < length saved)%nat ∧
    drop index' saved ++ take index' saved = xs ++ [x].
Proof.
  intros Hlt Heq.
  destruct (lookup_lt_is_Some_2 saved index Hlt) as [y Hy].
  rewrite (drop_S _ _ _ Hy) in Heq. simplify_eq/=.
  eexists; split; [done|]. split; [done|].
  case_decide as Hd; (split; [lia|]).
  - by rewrite (take_S_r _ _ _ Hy), app_assoc.
  - assert (S index = length saved) as Hlen by lia.
    rewrite (drop_ge saved (S index)) by lia. rewrite drop_0, take_0. simpl.
    rewrite app_nil_r.
    rewrite <-(firstn_all saved) at 1. rewrite <-Hlen.
    by rewrite (take_S_r _ _ _ Hy).
Qed.

(** One [next] of an object moves the queue it stands for by one place;
    the heap grows only when the generator expression wraps a list. *)
Lemma rep_next o n L R (h : heap T) :
  rep o n L R → length h = n →
  match L with
  | [] => R = [] ∧ ∃ o', iter_next o h = (None, o', h)
  | x :: xs =>
      ∃ o' h' R',
        iter_next o h = (Some x, o', h') ∧
        rep o' (length h') (turn o x xs) R' ∧
        is_cycle o' = is_cycle o ∧
        (length R' ≤ length xs)%nat ∧
        ((h' = h ∧ R = [] ∧ R' = [] ∧ (x < length h)%nat) ∨
         (∃ l, R = l :: R' ∧ h' = h ++ [l] ∧ x = length h))
  end.
Proof.
  intros Hrep. revert h.
  induction Hrep as [rest n|c r n L R Hc IH Hcyc HR Hr
                    |u saved n P R Hu IH Hfin Hnd Hlt|saved i n Hi Hnd Hlt];
    intros h Hn.
  - (* the generator expression *)
    destruct rest as [|l rest]; simpl; [eauto|].
    exists (GenExpr rest), (h ++ [l]), rest. rewrite length_app. simpl.
    replace (length h + 1)%nat with (S n) by lia.
    split_and!; [by rewrite Hn|constructor|done|by rewrite length_seq|].
    right. exists l. by rewrite Hn.
  - (* islice *)
    specialize (IH h Hn).
    destruct r as [|r].
    { simpl. destruct R; [|simpl in HR; lia]. eauto. }
    destruct L as [|x xs]; simpl.
    { destruct IH as [-> [o' ->]]. eauto. }
    destruct IH as (c' & h' & R' & -> & Hc' & Hcyc' & HR' & Halloc).
    unfold turn in Hc'. rewrite Hcyc in Hc'.
    assert (length R' ≤ r)%nat as HR'r
      by (destruct Halloc as [(_ & _ & -> & _)|(l & -> & _)]; simpl in *; lia).
    exists (ISlice c' r), h', R'. simpl in Hr.
    split_and!; [done| |done|rewrite length_take; lia|done].
    unfold turn; simpl.
    rewrite <-(take_app_le xs [x] r) by lia.
    constructor; [done|congruence|done|rewrite length_app; simpl; lia].
  - (* cycle, first pass *)
    specialize (IH h Hn). subst n.
    destruct P as [|x P]; simpl.
    + destruct IH as [-> [u' Hnext]]. rewrite Hnext.
      destruct saved as [|x xs]; simpl; [eauto|].
      eexists _, h, []. split; [done|].
      inversion_clear Hnd. inversion_clear Hlt.
      split_and!; [|done|simpl; lia|left; split_and!; [done..|lia]].
      unfold turn; simpl.
      case_decide.
      * destruct xs as [|y xs']; [simpl in *; lia|].
        apply (rep_saved (x :: y :: xs') 1 (length h));
          [simpl; lia|by constructor|by constructor].
      * destruct xs; [|simpl in *; lia].
        apply (rep_saved [x] 0 (length h));
          [simpl; lia|by constructor|by constructor].
    + destruct IH as (u' & h' & R' & -> & Hu' & Hfin' & HR' & Halloc).
      unfold turn in Hu'. rewrite Hfin in Hu'.
      exists (Cycle (Some u') (saved ++ [x]) 0%nat), h', R'.
      split_and!; [done| |done|rewrite length_app; lia|done].
      unfold turn; simpl. rewrite <-app_assoc.
      constructor; [done|congruence| |].
      * rewrite app_assoc. rewrite <-Permutation_cons_append. by rewrite app_comm_cons.
      * apply Forall_app; split.
        -- eapply Forall_impl; [exact Hlt|]. simpl. intros y Hy.
           destruct Halloc as [(-> & _)|(l & _ & -> & _)];
             rewrite ?length_app; simpl; lia.
        -- constructor; [|done].
           destruct Halloc as [(-> & _ & _ & ?)|(l & _ & -> & ->)];
             rewrite ?length_app; simpl; lia.
  - (* cycle, from the saved items *)
    destruct (drop i saved ++ take i saved) as [|x xs] eqn:HL.
    { apply (f_equal length) in HL.
      rewrite length_app, length_drop, length_take in HL. simpl in HL. lia. }
    destruct (cycle_saved_next saved i x xs Hi HL) as (i' & -> & Hx & Hi' & HL').
    simpl. rewrite Hx.
    eexists _, h, []. split; [done|].
    split_and!; [|done|simpl; lia|left; split_and!; [done..|]].
    + unfold turn; simpl. rewrite <-HL'. rewrite Hn. by constructor.
    + apply list_elem_of_lookup_2 in Hx.
      rewrite Forall_forall in Hlt. specialize (Hlt x Hx). simpl in Hlt. lia.
Qed.

Lemma cycle_next c (h : heap T) x xs R :
  rep c (length h) (x :: xs) R → is_cycle c = true →
  ∃ c' h' R',
    iter_next c h = (Some x, c', h') ∧
    rep c' (length h') (xs ++ [x]) R' ∧
    is_cycle c' = true ∧
    (length R' ≤ length xs)%nat ∧
    h' ++ R' = h ++ R ∧ (x < length h')%nat.
Proof.
  intros Hrep Hcyc.
  destruct (rep_next _ _ _ _ h Hrep eq_refl)
    as (c' & h' & R' & Hnext & Hrep' & Hcyc' & HR' & Halloc).
  unfold turn in Hrep'. rewrite Hcyc in Hrep'.
  exists c', h', R'. split_and!; [done|done|congruence|done| |].
  - destruct Halloc as [(-> & -> & -> & _)|(l & -> & -> & _)]; [done|].
    by rewrite <-app_assoc.
  - destruct Halloc as [(-> & _ & _ & ?)|(l & _ & -> & ->)]; [done|].
    rewrite length_app; simpl; lia.
Qed.

Lemma cost_cons (q : list (list T)) l :
  cost (l :: q) = (S (S (length l)) + cost q)%nat.
Proof. done. Qed.

Lemma cost_app (q : list (list T)) l :
  cost (q ++ [l]) = (cost q + S (S (length l)))%nat.
Proof.
  unfold cost. induction q as [|k q IH]; csimpl; [lia|].
  rewrite IH. lia.
Qed.

Lemma drain_while fuel n c (h : heap T) :
  drain (S fuel) (Frame AtWhile (S n) c h) = drain fuel (Frame AtFor (S n) c h).
Proof. done. Qed.

(** The generator, started anywhere in its run, yields what the queue
    of its live iterators yields. *)
Lemma drain_queue q out :
  qsteps q out →
  ∀ p c (h : heap T) R L fuel,
    rep c (length h) L R → is_cycle c = true →
    Forall2 (λ x l, (h ++ R) !! x = Some l) L q →
    (p = AtFor → q ≠ []) →
    (cost q + (if p is AtWhile then 1 else 0) ≤ fuel)%nat →
    drain fuel (Frame p (length L) c h) = Some out.
Proof.
  induction 1 as [|q out Hq IH|v l q out Hq IH];
    intros p c h R L fuel Hrep Hcyc HL Hp Hfuel.
  - apply Forall2_nil_inv_r in HL as ->.
    destruct p; [|by destruct Hp].
    destruct fuel; [simpl in Hfuel; lia|done].
  - apply Forall2_cons_inv_r in HL as (x & xs & Hx & Hxs & ->).
    assert (∀ f, (S (cost q) ≤ f)%nat →
      drain (S f) (Frame AtFor (length (x :: xs)) c h) = Some out) as Hfor.
    { intros f Hf.
      destruct (cycle_next c h x xs R Hrep Hcyc)
        as (c' & h' & R' & Hnext & Hrep' & Hcyc' & HR' & Hheap & Hlt).
      assert (list_next x h' = Some (None, h')) as Hdry.
      { unfold list_next.
        by rewrite <-(lookup_app_l h' R'), Hheap, Hx by done. }
      simpl. unfold step. simpl. rewrite Hnext, Hdry, Nat.sub_0_r.
      eapply (IH AtWhile _ h' R' xs); [|done|by rewrite Hheap|done|lia].
      rewrite <-(app_nil_r xs) at 2.
      rewrite <-(take_app_length xs [x]) at 2.
      constructor; [|done|by rewrite app_nil_r, take_app_length; apply NoDup_cons_1_2
                   with x, (rep_NoDup _ _ _ _ Hrep)|done].
      constructor; [done..|rewrite length_app; lia]. }
    rewrite cost_cons in Hfuel; simpl in Hfuel.
    destruct p.
    + destruct fuel as [|[|f]]; [lia..|].
      cbn [length]. rewrite drain_while. apply Hfor. lia.
    + destruct fuel as [|f]; [lia|]. apply Hfor. lia.
  - apply Forall2_cons_inv_r in HL as (x & xs & Hx & Hxs & ->).
    assert (∀ f, (cost (q ++ [l]) ≤ f)%nat →
      drain (S f) (Frame AtFor (length (x :: xs)) c h) = Some (v :: out)) as Hfor.
    { intros f Hf.
      destruct (cycle_next c h x xs R Hrep Hcyc)
        as (c' & h' & R' & Hnext & Hrep' & Hcyc' & HR' & Hheap & Hlt).
      assert (list_next x h' = Some (Some v, <[x := l]> h')) as Hitem.
      { unfold list_next.
        by rewrite <-(lookup_app_l h' R'), Hheap, Hx by done. }
      simpl. unfold step. simpl. rewrite Hnext, Hitem.
      replace (S (length xs)) with (length (xs ++ [x]))
        by (rewrite length_app; simpl; lia).
      erewrite (IH AtFor c' (<[x := l]> h') R' (xs ++ [x]) f); [done| |done| | |lia].
      - by rewrite length_insert.
      - rewrite <-insert_app_l, Hheap by done.
        pose proof (rep_NoDup _ _ _ _ Hrep) as Hnd.
        apply NoDup_cons in Hnd as [Hnotin _].
        apply Forall2_app.
        + apply Forall2_same_length_lookup in Hxs as [Hlen Hxs].
          apply Forall2_same_length_lookup_2; [done|].
          intros i y k Hy Hk.
          rewrite list_lookup_insert_ne; [by eapply Hxs|].
          intros ->. by apply Hnotin, list_elem_of_lookup_2 with i.
        + constructor; [|done].
          apply list_lookup_insert_eq. rewrite <-Hheap, length_app. lia.
      - by destruct q. }
    rewrite cost_app in Hfor.
    rewrite cost_cons in Hfuel; simpl in Hfuel.
    destruct p.
    + destruct fuel as [|[|f]]; [lia..|].
      cbn [length]. rewrite drain_while. apply Hfor. lia.
    + destruct fuel as [|f]; [lia|]. apply Hfor. lia.
Qed.

(** One round of the queue is one round of the claim: every list still
    to serve gives its head, and the lists served wait behind it. *)
Lemma qsteps_round (todo : list (list T)) :
  ∀ served out,
    qsteps (served ++ omap tail_of todo) out →
    qsteps (todo ++ served) (omap head todo ++ out).
Proof.
  induction todo as [|[|v l] todo IH]; intros served out Hq; simpl in *.
  - by rewrite app_nil_r in Hq.
  - constructor. by apply IH.
  - constructor. rewrite <-app_assoc. apply IH. by rewrite <-app_assoc.
Qed.

Lemma max_list_tails (ls : list (list T)) n :
  (max_list (length <$> ls) ≤ S n)%nat →
  (max_list (length <$> omap tail_of ls) ≤ n)%nat.
Proof.
  induction ls as [|[|v l] ls IH]; csimpl; [lia|..]; intros; [apply IH|]; lia.
Qed.

Lemma qsteps_rounds n :
  ∀ ls : list (list T),
    (max_list (length <$> ls) ≤ n)%nat → qsteps ls (rounds n ls).
Proof.
  induction n as [|n IH]; intros ls Hmax; simpl.
  - induction ls as [|[|v l] ls IHls]; csimpl in *; [constructor| |lia].
    constructor. apply IHls. lia.
  - rewrite <-(app_nil_r ls) at 1.
    apply qsteps_round. simpl. by apply IH, max_list_tails.
Qed.

Lemma start_rep (ls : list (list T)) :
  rep (Cycle (Some (GenExpr ls)) [] 0%nat) 0 (seq 0 (length ls) ++ []) ls.
Proof. constructor; [constructor|done| |done]. rewrite app_nil_r. apply NoDup_seq. Qed.

Lemma start_queue (ls : list (list T)) :
  Forall2 (λ x l, ([] ++ ls) !! x = Some l) (seq 0 (length ls) ++ []) ls.
Proof.
  rewrite app_nil_r. apply Forall2_same_length_lookup_2; [by rewrite length_seq|].
  intros i x l [-> _]%lookup_seq Hl. done.
Qed.

Lemma drain_start (ls : list (list T)) fuel :
  (enough ls ≤ fuel)%nat → drain fuel (start ls) = Some (interleave ls).
Proof.
  intros Hfuel. unfold enough in Hfuel.
  assert (qsteps ls (interleave ls)) as Hq by by apply qsteps_rounds.
  pose proof (drain_queue ls _ Hq AtWhile _ [] ls _ fuel
                (start_rep ls) eq_refl (start_queue ls)) as Hdrain.
  rewrite app_nil_r, length_seq in Hdrain.
  apply Hdrain; [done|lia].
Qed.

(** A source list is met in the rounds in its own order. *)
Lemma rounds_sublist n :
  ∀ (ls : list (list T)) l,
    l ∈ ls → (length l ≤ n)%nat → l `sublist_of` rounds n ls.
Proof.
  induction n as [|n IH]; intros ls l Hl Hn.
  - destruct l; [apply sublist_nil_l|simpl in Hn; lia].
  - simpl. destruct l as [|v l]; [apply sublist_nil_l|].
    change (v :: l) with ([v] ++ l). apply sublist_app.
    + clear -Hl. induction ls as [|k ls IHls]; [by apply elem_of_nil in Hl|].
      apply elem_of_cons in Hl as [<-|Hl]; simpl.
      * apply sublist_skip, sublist_nil_l.
      * destruct (head k); [apply sublist_cons|]; by apply IHls.
    + apply IH; [|simpl in Hn; lia].
      apply list_elem_of_omap. by exists (v :: l).
Qed.

Lemma drain_mono fuel :
  ∀ (s : frame T) out fuel',
    drain fuel s = Some out → (fuel ≤ fuel')%nat → drain fuel' s = Some out.
Proof.
  induction fuel as [|fuel IH]; intros s out fuel' Hdrain Hle; [done|].
  destruct fuel' as [|fuel']; [lia|]. simpl in *.
  destruct (step s) as [[v| | |] s']; [|by eapply IH; [|lia]|done..].
  destruct (drain fuel s') as [out'|] eqn:Hs'; [|done].
  by rewrite (IH s' out' fuel') by (done || lia).
Qed.

(** Whatever fuel lets the generator finish, it has yielded the rounds
    of its input. *)
Lemma round_robin_list_Some fuel (iterables : list (list T)) out :
  round_robin_list fuel iterables = Some out → out = interleave iterables.
Proof.
  intros Hout.
  apply (drain_mono _ _ _ (enough iterables + fuel)) in Hout; [|lia].
  rewrite drain_start in Hout by lia. by simplify_eq.
Qed.

(** C1: the round-robin sequencer, given enough fuel, yields exactly one
    element from each still-nonempty input list in left-to-right order,
    round after round until all lists are exhausted; every input list is
    met in the output in its own order; and [[A,B,C]; [D,E]] gives
    [A,D,B,E,C]. *)
Theorem round_robin_list_interleave (iterables : list (list T)) (extra : nat) :
  round_robin_list (enough iterables + extra) iterables = Some (interleave iterables)
  ∧ (∀ l, l ∈ iterables → l `sublist_of` interleave iterables)
  ∧ (∀ A B C D E : T, interleave [[A; B; C]; [D; E]] = [A; D; B; E; C]).
Proof.
  split_and!.
  - apply drain_start. lia.
  - intros l Hl. apply rounds_sublist; [done|].
    apply max_list_elem_of_le, list_elem_of_fmap. by exists l.
  - done.
Qed.

End Facts.

Lemma round_robin_list_ABC_DE :
  round_robin_list 10 [["A"; "B"; "C"]; ["D"; "E"]]%string
    = Some ["A"; "D"; "B"; "E"; "C"]%string.
Proof. exact (proj1 (round_robin_list_interleave [["A"; "B"; "C"]; ["D"; "E"]]%string 0)). Defined.
End Sequencer.

(** ** The plans of the commands *)
Module Plans.
Import RoundRobin Sequencer Commands.

#[local] Instance in_bounds_dec a pr : Decision (in_bounds a pr).
Proof. unfold in_bounds. apply _. Defined.

Lemma described_emit a (prs : list (Z * Z)) :
  described (emit a <$> prs) = prs.
Proof.
  unfold described. rewrite <-list_fmap_compose.
  rewrite <-(list_fmap_id prs) at 2. apply list_fmap_ext.
  intros _ [p r] _. simpl. f_equal; lia.
Qed.

Lemma emit_source a (prs : list (Z * Z)) :
  Forall (λ pg, source pg = stream (pdf a)) (emit a <$> prs).
Proof. apply Forall_fmap, Forall_true. done. Qed.

(** The loop of [select] over one page range. *)
Lemma select_pages_in_bounds a prs output :
  Forall (in_bounds a) prs →
  select_pages a prs output = Ok (output ++ (emit a <$> prs)).
Proof.
  intros Hall. revert output.
  induction Hall as [|[p r] prs Hp _ IH]; intros output; simpl.
  - by rewrite app_nil_r.
  - rewrite bool_decide_eq_true_2 by exact Hp.
    rewrite IH. by rewrite <-app_assoc.
Qed.

Lemma select_pages_out_of_bounds a pre p r post output :
  Forall (in_bounds a) pre → ¬ in_bounds a (p, r) →
  select_pages a (pre ++ (p, r) :: post) output
    = Raise (CommandError (PageNotFound p (name a))).
Proof.
  intros Hpre Hp. revert output.
  induction Hpre as [|[q s] pre Hq _ IH]; intros output; simpl.
  - by rewrite bool_decide_eq_false_2 by exact Hp.
  - rewrite bool_decide_eq_true_2 by exact Hq. apply IH.
Qed.

(** The first page outside the document, if there is one. *)
Lemma first_out_of_bounds a (prs : list (Z * Z)) :
  Forall (in_bounds a) prs ∨
  ∃ pre p r post,
    prs = pre ++ (p, r) :: post ∧ Forall (in_bounds a) pre ∧ ¬ in_bounds a (p, r).
Proof.
  induction prs as [|[p r] prs IH]; [by left|].
  destruct (decide (in_bounds a (p, r))) as [Hp|Hp].
  - destruct IH as [Hall|(pre & q & s & post & -> & Hpre & Hq)].
    + left. by constructor.
    + right. exists ((p, r) :: pre), q, s, post. split_and!; [done|by constructor|done].
  - right. by exists [], p, r, prs.
Qed.

Lemma select_pages_Ok a prs output output' :
  select_pages a prs output = Ok output' →
  Forall (in_bounds a) prs ∧ output' = output ++ (emit a <$> prs).
Proof.
  intros Hok.
  destruct (first_out_of_bounds a prs) as [Hall|(pre & p & r & post & -> & Hpre & Hp)].
  - rewrite select_pages_in_bounds in Hok by done. by simplify_eq.
  - by rewrite select_pages_out_of_bounds in Hok.
Qed.

(** The loop of [zip_pdfs] is the same loop on a list of its own. *)
Lemma zip_pages_select_pages a prs output :
  zip_pages a prs output = select_pages a prs output.
Proof.
  revert output. induction prs as [|[p r] prs IH]; intros output; simpl; [done|].
  by rewrite IH.
Qed.

Lemma range_seqZ n : range 1 (n + 1) = seqZ 1 n.
Proof. unfold range. f_equal. lia. Qed.

Lemma pagerange_inclusive_empty a :
  pages a = [] →
  pagerange_inclusive a = (λ p, (p, 0)) <$> seqZ 1 (getNumPages (pdf a)).
Proof. intros Hnil. unfold pagerange_inclusive. by rewrite Hnil, range_seqZ. Qed.

Lemma all_pages_in_bounds a (ps : list Z) :
  Forall (λ p, 1 ≤ p ≤ getNumPages (pdf a)) ps →
  Forall (in_bounds a) ((λ p, (p, ROTATION_NONE)) <$> ps).
Proof. intros Hps. by apply Forall_fmap. Qed.

Lemma pagerange_exclusive_in_bounds a :
  Forall (in_bounds a) (pagerange_exclusive a).
Proof.
  apply all_pages_in_bounds, Forall_forall.
  intros p [_ Hp%elem_of_seqZ]%list_elem_of_filter. lia.
Qed.

(** C6: on the inclusive path an empty range expression expands to all
    pages 1..page_count, ascending, each with rotation 0, in [select] and
    in [zip]; [select] on one 3-page file with no range plans [1,2,3]. *)
Theorem empty_range_is_all_pages (a : input_args) (output : list page) :
  pages a = [] →
  ∃ plan,
    select_pages a (pagerange false a) output = Ok (output ++ plan) ∧
    zip_pages a (pagerange_inclusive a) output = Ok (output ++ plan) ∧
    described plan = (λ p, (p, 0)) <$> seqZ 1 (getNumPages (pdf a)) ∧
    Forall (λ pg, source pg = stream (pdf a)) plan.
Proof.
  intros Hnil. exists (emit a <$> pagerange_inclusive a).
  assert (Forall (in_bounds a) (pagerange_inclusive a)) as Hall.
  { rewrite pagerange_inclusive_empty by done.
    apply all_pages_in_bounds, Forall_seqZ. lia. }
  split_and!.
  - by apply select_pages_in_bounds.
  - rewrite zip_pages_select_pages. by apply select_pages_in_bounds.
  - by rewrite described_emit, pagerange_inclusive_empty.
  - apply emit_source.
Qed.

Lemma empty_range_three_pages :
  select_files false [InputArgs "a.pdf" {| stream := "a.pdf"; getNumPages := 3 |} []] []
    = Ok [Page "a.pdf" 0 0; Page "a.pdf" 1 0; Page "a.pdf" 2 0]
  ∧ ∃ plan,
      select_pages (InputArgs "a.pdf" {| stream := "a.pdf"; getNumPages := 3 |} [])
        (pagerange false (InputArgs "a.pdf" {| stream := "a.pdf"; getNumPages := 3 |} [])) []
        = Ok ([] ++ plan) ∧
      described plan = [(1, 0); (2, 0); (3, 0)].
Proof.
  split; [done|].
  destruct (empty_range_is_all_pages
              (InputArgs "a.pdf" {| stream := "a.pdf"; getNumPages := 3 |} []) []
              eq_refl) as (plan & Hsel & _ & Hplan & _).
  exists plan. split; [exact Hsel|exact Hplan].
Defined.
Lemma pagerange_exclusive_empty a :
  pages a = [] →
  pagerange_exclusive a = (λ p, (p, 0)) <$> seqZ 1 (getNumPages (pdf a)).
Proof.
  intros Hnil. unfold pagerange_exclusive. rewrite Hnil, range_seqZ. simpl.
  f_equal. induction (seqZ 1 (getNumPages (pdf a))) as [|p ps IH]; [done|].
  rewrite filter_cons_True by apply not_elem_of_nil. by rewrite IH.
Qed.

(** C10: [delete] with an empty range expression excludes nothing: it
    emits all pages 1..page_count in ascending order with rotation 0. *)
Theorem delete_empty_range_keeps_all (a : input_args) (output : list page) :
  pages a = [] →
  ∃ plan,
    select_pages a (pagerange true a) output = Ok (output ++ plan) ∧
    described plan = (λ p, (p, 0)) <$> seqZ 1 (getNumPages (pdf a)) ∧
    Forall (λ pg, source pg = stream (pdf a)) plan.
Proof.
  intros Hnil. exists (emit a <$> pagerange_exclusive a). split_and!.
  - apply select_pages_in_bounds, pagerange_exclusive_in_bounds.
  - by rewrite described_emit, pagerange_exclusive_empty.
  - apply emit_source.
Qed.

Lemma delete_empty_range_three_pages :
  ∃ plan,
    select_pages (InputArgs "a.pdf" {| stream := "a.pdf"; getNumPages := 3 |} [])
      (pagerange true (InputArgs "a.pdf" {| stream := "a.pdf"; getNumPages := 3 |} [])) []
      = Ok ([] ++ plan) ∧
    described plan = [(1, 0); (2, 0); (3, 0)].
Proof.
  destruct (delete_empty_range_keeps_all
              (InputArgs "a.pdf" {| stream := "a.pdf"; getNumPages := 3 |} []) []
              eq_refl) as (plan & Hsel & Hplan & _).
  exists plan. split; [exact Hsel|exact Hplan].
Defined.

Lemma pagerange_inclusive_named a :
  pages a ≠ [] → pagerange_inclusive a = pages a.
Proof. unfold pagerange_inclusive. by destruct (pages a). Qed.

(** The loop of [select] on the page objects: within bounds it adds one
    reference per pair, in order, and turns each object by all that is
    asked of it. *)
Lemma select_pages_in_place_in_bounds a prs :
  Forall (in_bounds a) prs →
  ∀ output turned,
    ∃ turned',
      select_pages_in_place a prs output turned
        = Ok (output ++ ((λ pr, pr.1 - 1) <$> prs), turned') ∧
      ∀ i, default 0 (turned' !! i) = default 0 (turned !! i) + asked prs (i + 1).
Proof.
  induction 1 as [|[p r] prs Hp _ IH]; intros output turned; simpl.
  - exists turned. rewrite app_nil_r. split; [done|]. intros i. unfold asked. simpl. lia.
  - rewrite bool_decide_eq_true_2 by exact Hp.
    destruct (IH (output ++ [p - 1]) (rotate_in_place (p - 1) r turned))
      as (turned' & -> & Hturned).
    exists turned'. rewrite <-app_assoc. split; [done|].
    intros i. rewrite Hturned. unfold rotate_in_place, asked.
    rewrite filter_cons.
    destruct (decide (p - 1 = i)) as [<-|Hne].
    + rewrite lookup_insert_eq.
      rewrite decide_True by (simpl; lia).
      rewrite fmap_cons. cbn [foldr snd default]. unfold id. lia.
    + rewrite lookup_insert_ne by done.
      rewrite decide_False by (simpl; lia). done.
Qed.

Lemma written_numbers a (prs : list (Z * Z)) turned :
  fst <$> described (written a ((λ pr, pr.1 - 1) <$> prs) turned) = fst <$> prs.
Proof.
  unfold described, written. rewrite <-!list_fmap_compose.
  apply list_fmap_ext. intros _ [p r] _. simpl. lia.
Qed.

(** X18: on the inclusive path of [select] the page numbers an
    in-bounds expression names are emitted one per occurrence, in the
    stated order, duplicates kept: the page numbers written for an
    expression that names pages are those of the expression, occurrence
    for occurrence (the empty expression names none and falls to the
    default of all pages). *)
Theorem select_keeps_duplicates (a : input_args) (output : list Z) (turned : gmap Z Z) :
  Forall (in_bounds a) (pages a) →
  ∃ added turned',
    select_pages_in_place a (pagerange false a) output turned
      = Ok (output ++ added, turned') ∧
    fst <$> pages a `sublist_of` (fst <$> described (written a added turned')) ∧
    (pages a ≠ [] → fst <$> described (written a added turned') = fst <$> pages a) ∧
    Forall (λ pg, source pg = stream (pdf a)) (written a added turned').
Proof.
  intros Hall.
  assert (Forall (in_bounds a) (pagerange_inclusive a)) as Hall'.
  { destruct (pages a) as [|pr prs] eqn:Hpages.
    - rewrite pagerange_inclusive_empty by done.
      apply all_pages_in_bounds, Forall_seqZ. lia.
    - rewrite pagerange_inclusive_named by (by rewrite Hpages). by rewrite Hpages. }
  destruct (select_pages_in_place_in_bounds a _ Hall' output turned)
    as (turned' & Hsel & _).
  exists ((λ pr, pr.1 - 1) <$> pagerange_inclusive a), turned'.
  rewrite written_numbers. split_and!.
  - exact Hsel.
  - destruct (pages a) as [|pr prs] eqn:Hpages; [apply sublist_nil_l|].
    rewrite <-Hpages, pagerange_inclusive_named by (by rewrite Hpages). done.
  - intros Hnamed. by rewrite pagerange_inclusive_named.
  - unfold written. apply Forall_fmap, Forall_true. done.
Qed.

Lemma select_page_one_three_times :
  ∃ added turned',
    select_pages_in_place
      (InputArgs "a.pdf" {| stream := "a.pdf"; getNumPages := 3 |} [(1, 0); (1, 90); (1, 0)])
      [(1, 0); (1, 90); (1, 0)] [] ∅ = Ok (added, turned') ∧
    fst <$> described
      (written
         (InputArgs "a.pdf" {| stream := "a.pdf"; getNumPages := 3 |} [(1, 0); (1, 90); (1, 0)])
         added turned')
    = [1; 1; 1].
Proof.
  destruct (select_keeps_duplicates
              (InputArgs "a.pdf" {| stream := "a.pdf"; getNumPages := 3 |}
                 [(1, 0); (1, 90); (1, 0)]) [] ∅)
    as (added & turned' & Hsel & _ & Hnumbers & _).
  - repeat constructor; unfold in_bounds; simpl; lia.
  - exists added, turned'. split; [exact Hsel|]. by apply Hnumbers.
Defined.

(** C9 on the code: an expression that names page 1 three times, at 0,
    90 and 0 degrees, does emit page 1 three times, but the three are one
    page object, turned by 90 degrees in all: what is written is the page
    at 90, 90, 90 and not at the 0, 90, 0 of the expression. *)
Lemma select_repeated_page_shares_rotation :
  ∃ added turned',
    select_pages_in_place
      (InputArgs "a.pdf" {| stream := "a.pdf"; getNumPages := 3 |} [(1, 0); (1, 90); (1, 0)])
      (pagerange false
         (InputArgs "a.pdf" {| stream := "a.pdf"; getNumPages := 3 |}
            [(1, 0); (1, 90); (1, 0)])) [] ∅
      = Ok (added, turned') ∧
    described
      (written
         (InputArgs "a.pdf" {| stream := "a.pdf"; getNumPages := 3 |} [(1, 0); (1, 90); (1, 0)])
         added turned')
      = [(1, 90); (1, 90); (1, 90)] ∧
    described
      (written
         (InputArgs "a.pdf" {| stream := "a.pdf"; getNumPages := 3 |} [(1, 0); (1, 90); (1, 0)])
         added turned')
      ≠ [(1, 0); (1, 90); (1, 0)].
Proof.
  exists [0; 0; 0], {[ 0 := 90 ]}.
  split_and!; [by vm_compute|by vm_compute|by vm_compute].
Qed.

(** The loop over the files: it stops at the first file that fails. *)
Lemma select_files_in_bounds inverse fr output :
  Forall (λ a, Forall (in_bounds a) (pagerange inverse a)) fr →
  select_files inverse fr output
    = Ok (output ++ (fr ≫= λ a, emit a <$> pagerange inverse a)).
Proof.
  intros Hall. revert output.
  induction Hall as [|a fr Ha _ IH]; intros output; simpl.
  - by rewrite app_nil_r.
  - rewrite select_pages_in_bounds by done. rewrite IH. by rewrite <-app_assoc.
Qed.

Lemma select_files_out_of_bounds inverse good a rest pre p r post output :
  Forall (λ a, Forall (in_bounds a) (pagerange inverse a)) good →
  pagerange inverse a = pre ++ (p, r) :: post →
  Forall (in_bounds a) pre → ¬ in_bounds a (p, r) →
  select_files inverse (good ++ a :: rest) output
    = Raise (CommandError (PageNotFound p (name a))).
Proof.
  intros Hgood Ha Hpre Hp. revert output.
  induction Hgood as [|b good Hb _ IH]; intros output; simpl.
  - by rewrite Ha, select_pages_out_of_bounds.
  - rewrite select_pages_in_bounds by done. apply IH.
Qed.

Lemma zip_files_in_bounds fr filestozip :
  Forall (λ a, Forall (in_bounds a) (pagerange_inclusive a)) fr →
  zip_files fr filestozip
    = Ok (filestozip ++ ((λ a, emit a <$> pagerange_inclusive a) <$> fr)).
Proof.
  intros Hall. revert filestozip.
  induction Hall as [|a fr Ha _ IH]; intros filestozip; simpl.
  - by rewrite app_nil_r.
  - rewrite zip_pages_select_pages, select_pages_in_bounds by done.
    rewrite IH. by rewrite <-app_assoc.
Qed.

Lemma zip_files_out_of_bounds good a rest pre p r post filestozip :
  Forall (λ a, Forall (in_bounds a) (pagerange_inclusive a)) good →
  pagerange_inclusive a = pre ++ (p, r) :: post →
  Forall (in_bounds a) pre → ¬ in_bounds a (p, r) →
  zip_files (good ++ a :: rest) filestozip
    = Raise (CommandError (PageNotFound p (name a))).
Proof.
  intros Hgood Ha Hpre Hp. revert filestozip.
  induction Hgood as [|b good Hb _ IH]; intros filestozip; simpl.
  - by rewrite Ha, zip_pages_select_pages, select_pages_out_of_bounds.
  - rewrite zip_pages_select_pages, select_pages_in_bounds by done. apply IH.
Qed.

(** The first file with a page outside it, if there is one. *)
Lemma first_bad_file inverse (fr : list input_args) :
  Forall (λ a, Forall (in_bounds a) (pagerange inverse a)) fr ∨
  ∃ good a rest pre p r post,
    fr = good ++ a :: rest ∧
    Forall (λ a, Forall (in_bounds a) (pagerange inverse a)) good ∧
    pagerange inverse a = pre ++ (p, r) :: post ∧
    Forall (in_bounds a) pre ∧ ¬ in_bounds a (p, r).
Proof.
  induction fr as [|a fr IH]; [by left|].
  destruct (first_out_of_bounds a (pagerange inverse a))
    as [Ha|(pre & p & r & post & Ha & Hpre & Hp)].
  - destruct IH as [Hall|(good & b & rest & pre & p & r & post & -> & Hgood & Hb)].
    + left. by constructor.
    + right. exists (a :: good), b, rest, pre, p, r, post.
      split_and!; [done|by constructor|apply Hb..].
  - right. by exists [], a, fr, pre, p, r, post.
Qed.

(** *** The complement [delete] keeps *)
Lemma seq_sorted i n : StronglySorted lt (seq i n).
Proof.
  revert i. induction n as [|n IH]; intros i; simpl; constructor; [apply IH|].
  apply Forall_seq. intros; lia.
Qed.

Lemma seqZ_sorted m n : StronglySorted Z.lt (seqZ m n).
Proof.
  unfold seqZ. eapply StronglySorted_fmap; [|apply seq_sorted].
  intros x y Hxy. simpl in *. lia.
Qed.

Lemma filter_sorted {A} (R : relation A) (P : A → Prop) `{!∀ x, Decision (P x)} l :
  StronglySorted R l → StronglySorted R (filter P l).
Proof.
  induction 1 as [|x l Hl IH Hx]; [constructor|].
  rewrite filter_cons. case_decide; [|done].
  constructor; [done|].
  apply Forall_forall. intros y [_ Hy]%list_elem_of_filter.
  rewrite Forall_forall in Hx. by apply Hx.
Qed.

Lemma filter_ext_elem {A} (P Q : A → Prop)
    `{!∀ x, Decision (P x)} `{!∀ x, Decision (Q x)} (l : list A) :
  (∀ x, x ∈ l → P x ↔ Q x) → filter P l = filter Q l.
Proof.
  induction l as [|x l IH]; intros Hext; [done|].
  assert (P x ↔ Q x) as HPQ by (apply Hext; by left).
  rewrite !filter_cons.
  rewrite IH by (intros y Hy; apply Hext; by right).
  repeat case_decide; tauto.
Qed.

Lemma included_unfold a :
  included a = filter (λ p, p ∉ excluded a) (seqZ 1 (getNumPages (pdf a))).
Proof.
  unfold included, pagerange_exclusive. rewrite range_seqZ.
  rewrite <-list_fmap_compose. apply list_fmap_id.
Qed.

Lemma elem_of_included a p :
  p ∈ included a ↔ 1 ≤ p ≤ getNumPages (pdf a) ∧ p ∉ excluded a.
Proof.
  rewrite included_unfold, list_elem_of_filter, elem_of_seqZ.
  split; intros []; split; (done || lia).
Qed.

Lemma pagerange_exclusive_included a :
  pagerange_exclusive a = (λ p, (p, 0)) <$> included a.
Proof.
  rewrite included_unfold. unfold pagerange_exclusive. by rewrite range_seqZ.
Qed.

(** C3, as the code has it: [delete] emits exactly the ascending
    complement, all page numbers 1..page_count that the expression does
    not name, each with rotation 0 whatever rotation the expression gave;
    the pages kept and the pages named are disjoint, and the pages kept
    with the named pages of the document are all its pages (with every
    named page, when each lies in 1..page_count). *)
Theorem delete_complement (a : input_args) (output : list page) :
  ∃ plan,
    select_pages a (pagerange true a) output = Ok (output ++ plan) ∧
    described plan = (λ p, (p, 0)) <$> included a ∧
    Forall (λ pg, source pg = stream (pdf a)) plan ∧
    StronglySorted Z.lt (included a) ∧
    (∀ p, p ∈ included a ↔ 1 ≤ p ≤ getNumPages (pdf a) ∧ p ∉ excluded a) ∧
    (list_to_set (included a) ∩ list_to_set (excluded a) = (∅ : gset Z)) ∧
    (list_to_set (included a)
       ∪ (list_to_set (excluded a) ∩ list_to_set (seqZ 1 (getNumPages (pdf a))))
     = (list_to_set (seqZ 1 (getNumPages (pdf a))) : gset Z)) ∧
    (Forall (in_bounds a) (pages a) →
     list_to_set (included a) ∪ list_to_set (excluded a)
     = (list_to_set (seqZ 1 (getNumPages (pdf a))) : gset Z)).
Proof.
  exists (emit a <$> pagerange_exclusive a). split_and!.
  - apply select_pages_in_bounds, pagerange_exclusive_in_bounds.
  - by rewrite described_emit, pagerange_exclusive_included.
  - apply emit_source.
  - rewrite included_unfold. apply filter_sorted, seqZ_sorted.
  - apply elem_of_included.
  - apply set_eq. intros p.
    rewrite elem_of_intersection, !elem_of_list_to_set, elem_of_included.
    rewrite elem_of_empty. tauto.
  - apply set_eq. intros p.
    rewrite elem_of_union, elem_of_intersection, !elem_of_list_to_set.
    rewrite elem_of_included, elem_of_seqZ.
    split.
    + intros [[? _]|[_ ?]]; lia.
    + intros Hp. destruct (decide (p ∈ excluded a)).
      * right. split; [done|lia].
      * left. split; [lia|done].
  - intros Hall. apply set_eq. intros p.
    rewrite elem_of_union, !elem_of_list_to_set.
    rewrite elem_of_included, elem_of_seqZ.
    split.
    + intros [[? _]|Hp]; [lia|].
      apply list_elem_of_fmap in Hp as ([q r] & -> & Hqr).
      rewrite Forall_forall in Hall. specialize (Hall _ Hqr).
      unfold in_bounds in Hall. simpl in *. lia.
    + intros Hp. destruct (decide (p ∈ excluded a)); [by right|].
      left. split; [lia|done].
Qed.

Lemma delete_two_of_three :
  ∃ plan,
    select_pages (InputArgs "a.pdf" {| stream := "a.pdf"; getNumPages := 3 |} [(2, 0)])
      (pagerange true (InputArgs "a.pdf" {| stream := "a.pdf"; getNumPages := 3 |} [(2, 0)]))
      [] = Ok plan ∧
    described plan = [(1, 0); (3, 0)] ∧
    list_to_set [1; 3] ∪ list_to_set [2] = (list_to_set [1; 2; 3] : gset Z).
Proof.
  destruct (delete_complement
              (InputArgs "a.pdf" {| stream := "a.pdf"; getNumPages := 3 |} [(2, 0)]) [])
    as (plan & Hsel & Hplan & _ & _ & _ & _ & _ & Hunion).
  exists plan. split; [exact Hsel|]. split; [exact Hplan|].
  apply Hunion. repeat constructor; unfold in_bounds; simpl; lia.
Defined.

(** C3 as stated fails where the expression names a page outside the
    document: deleting page 10 of a 3-page file keeps pages 1, 2, 3, and
    these with the named page 10 are not the pages of the file. *)
Lemma delete_union_not_all_pages :
  ∃ plan,
    select_files true
      [InputArgs "a.pdf" {| stream := "a.pdf"; getNumPages := 3 |} [(10, 0)]] []
      = Ok plan ∧
    described plan = [(1, 0); (2, 0); (3, 0)] ∧
    list_to_set (fst <$> described plan) ∪ list_to_set [10]
      ≠ (list_to_set [1; 2; 3] : gset Z).
Proof.
  eexists. split; [reflexivity|]. split; [reflexivity|].
  intros Heq.
  assert (10 ∈ (list_to_set [1; 2; 3] : gset Z)) as Hten.
  { rewrite <-Heq. apply elem_of_union. right.
    apply elem_of_list_to_set, list_elem_of_singleton. done. }
  apply elem_of_list_to_set in Hten.
  repeat (apply elem_of_cons in Hten as [Hten|Hten]; [lia|]).
  by apply elem_of_nil in Hten.
Qed.

Lemma pagerange_exclusive_within a :
  pagerange_exclusive (within a) = pagerange_exclusive a.
Proof.
  unfold pagerange_exclusive. simpl. f_equal. rewrite range_seqZ.
  apply filter_ext_elem. intros p Hp%elem_of_seqZ.
  rewrite !list_elem_of_fmap. split; intros Hnot ([q r] & -> & Hqr); apply Hnot.
  - exists (q, r). split; [done|]. apply list_elem_of_filter. simpl in *. split; [lia|done].
  - exists (q, r). split; [done|]. by apply list_elem_of_filter in Hqr as [_ ?].
Qed.

Lemma select_files_exclusive fr output :
  select_files true fr output
    = Ok (output ++ (fr ≫= λ a, emit a <$> pagerange_exclusive a)).
Proof.
  apply (select_files_in_bounds true), Forall_forall.
  intros a _. apply pagerange_exclusive_in_bounds.
Qed.

Lemma select_files_within fr output :
  select_files true (within <$> fr) output = select_files true fr output.
Proof.
  rewrite !select_files_exclusive. do 2 f_equal.
  induction fr as [|a fr IH]; [done|]. csimpl. rewrite IH. f_equal.
  by rewrite pagerange_exclusive_within.
Qed.

Section Run.
Variable parse_ranges : list string → result (list input_args).
Variable check_output_file : string → result unit.
Variable isabs : string → bool.
Variable destdir : string.
Variable sep : string.

Abbreviation select := (select parse_ranges check_output_file isabs destdir sep).
Abbreviation delete := (delete parse_ranges check_output_file isabs destdir sep).
Abbreviation zip_pdfs := (zip_pdfs parse_ranges isabs destdir sep).
Abbreviation output_path := (output_path isabs destdir sep).

(** Past the guards, [select] is its [try] block and then the write. *)
Lemma select_run args fr outputfilename inverse fs :
  parse_ranges (but_last args) = Ok fr →
  last args = Some outputfilename →
  missing fr outputfilename = false →
  check_output_file outputfilename = Ok () →
  select args inverse fs =
    match select_files inverse fr [] with
    | Ok output => (Ok (), write_pdf output (output_path outputfilename) fs)
    | Raise e => (Raise (CommandError (Caused e)), fs)
    end.
Proof.
  intros Hparse Hlast Hmissing Hcheck. unfold Commands.select.
  rewrite Hparse, Hlast, Hmissing, Hcheck.
  by destruct (select_files inverse fr []).
Qed.

Lemma zip_pdfs_run fuel args fr outputfilename fs :
  parse_ranges (but_last args) = Ok fr →
  last args = Some outputfilename →
  missing fr outputfilename = false →
  zip_pdfs fuel args fs =
    match zip_files fr [] with
    | Ok filestozip =>
        match round_robin_list fuel filestozip with
        | Some output => Some (Ok (), write_pdf output (output_path outputfilename) fs)
        | None => None
        end
    | Raise e => Some (Raise (CommandError (Caused e)), fs)
    end.
Proof.
  intros Hparse Hlast Hmissing. unfold Commands.zip_pdfs.
  rewrite Hparse, Hlast, Hmissing.
  by destruct (zip_files fr []).
Qed.

(** C5: on the inclusive path ([select] and [zip]) a page index outside
    [1, page_count] makes the command fail with the error that names the
    page and the file, wrapped by the command, and the command succeeds
    only if every page index of every file is within its document. *)
Theorem inclusive_page_out_of_range args fr outputfilename fs :
  parse_ranges (but_last args) = Ok fr →
  last args = Some outputfilename →
  missing fr outputfilename = false →
  check_output_file outputfilename = Ok () →
  (¬ Forall (λ a, Forall (in_bounds a) (pagerange_inclusive a)) fr →
   ∃ a p r,
     a ∈ fr ∧ (p, r) ∈ pagerange_inclusive a ∧
     ¬ (1 ≤ p ≤ getNumPages (pdf a)) ∧
     select args false fs
       = (Raise (CommandError (Caused (CommandError (PageNotFound p (name a))))), fs) ∧
     ∀ fuel, zip_pdfs fuel args fs
       = Some (Raise (CommandError (Caused (CommandError (PageNotFound p (name a))))), fs))
  ∧ ((select args false fs).1 = Ok () →
     Forall (λ a, Forall (in_bounds a) (pagerange_inclusive a)) fr)
  ∧ (∀ fuel fs', zip_pdfs fuel args fs = Some (Ok (), fs') →
     Forall (λ a, Forall (in_bounds a) (pagerange_inclusive a)) fr).
Proof.
  intros Hparse Hlast Hmissing Hcheck.
  destruct (first_bad_file false fr)
    as [Hall|(good & a & rest & pre & p & r & post & -> & Hgood & Ha & Hpre & Hp)].
  { split_and!; [by intros []|done..]. }
  assert (select args false fs
    = (Raise (CommandError (Caused (CommandError (PageNotFound p (name a))))), fs)) as Hsel.
  { rewrite (select_run _ _ _ _ _ Hparse Hlast Hmissing Hcheck).
    by rewrite (select_files_out_of_bounds false good a rest pre p r post). }
  assert (∀ fuel, zip_pdfs fuel args fs
    = Some (Raise (CommandError (Caused (CommandError (PageNotFound p (name a))))), fs)) as Hzip.
  { intros fuel. rewrite (zip_pdfs_run _ _ _ _ _ Hparse Hlast Hmissing).
    by rewrite (zip_files_out_of_bounds good a rest pre p r post). }
  split_and!.
  - intros _. exists a, p, r. split_and!; [|simpl in Ha; rewrite Ha|done..].
    + apply elem_of_app. right. apply elem_of_cons. by left.
    + apply elem_of_app. right. apply elem_of_cons. by left.
  - by rewrite Hsel.
  - intros fuel fs'. by rewrite Hzip.
Qed.

(** C4: on the exclusive path a named page outside [1, page_count] is
    ignored and raises nothing: past its guards [delete] always succeeds,
    and it writes the plan it would write with the out-of-range numbers
    absent from every expression. *)
Theorem delete_ignores_out_of_range args fr outputfilename fs :
  parse_ranges (but_last args) = Ok fr →
  last args = Some outputfilename →
  missing fr outputfilename = false →
  check_output_file outputfilename = Ok () →
  ∃ plan,
    select_files true fr [] = Ok plan ∧
    select_files true (within <$> fr) [] = Ok plan ∧
    delete args fs = (Ok (), fs ++ [(output_path outputfilename, plan)]).
Proof.
  intros Hparse Hlast Hmissing Hcheck.
  exists ([] ++ (fr ≫= λ a, emit a <$> pagerange_exclusive a)).
  split_and!.
  - apply select_files_exclusive.
  - rewrite select_files_within. apply select_files_exclusive.
  - unfold Commands.delete.
    rewrite (select_run _ _ _ _ _ Hparse Hlast Hmissing Hcheck).
    by rewrite select_files_exclusive.
Qed.

(** The outcome of a command, read off its guards and its [try] block. *)
Lemma select_cases args inverse fs :
  (∃ e, select args inverse fs = (Raise e, fs)) ∨
  (∃ fr outputfilename output,
     parse_ranges (but_last args) = Ok fr ∧
     last args = Some outputfilename ∧
     select_files inverse fr [] = Ok output ∧
     select args inverse fs
       = (Ok (), fs ++ [(output_path outputfilename, output)])).
Proof.
  unfold Commands.select.
  destruct (parse_ranges (but_last args)) as [fr|e]; [|by left; eexists].
  destruct (last args) as [outputfilename|]; [|by left; eexists].
  destruct (missing fr outputfilename); [by left; eexists|].
  destruct (check_output_file outputfilename) as [[]|e]; [|by left; eexists].
  destruct (select_files inverse fr []) as [output|e] eqn:Hfiles; [|by left; eexists].
  right. by exists fr, outputfilename, output.
Qed.

Lemma zip_pdfs_cases fuel args fs :
  zip_pdfs fuel args fs = None ∨
  (∃ e, zip_pdfs fuel args fs = Some (Raise e, fs)) ∨
  (∃ fr outputfilename filestozip,
     parse_ranges (but_last args) = Ok fr ∧
     last args = Some outputfilename ∧
     zip_files fr [] = Ok filestozip ∧
     zip_pdfs fuel args fs
       = Some (Ok (), fs ++ [(output_path outputfilename, interleave filestozip)])).
Proof.
  unfold Commands.zip_pdfs.
  destruct (parse_ranges (but_last args)) as [fr|e]; [|by right; left; eexists].
  destruct (last args) as [outputfilename|]; [|by right; left; eexists].
  destruct (missing fr outputfilename); [by right; left; eexists|].
  destruct (zip_files fr []) as [filestozip|e] eqn:Hfiles; [|by right; left; eexists].
  destruct (round_robin_list fuel filestozip) as [output|] eqn:Hrr; [|by left].
  apply round_robin_list_Some in Hrr as ->.
  right; right. by exists fr, outputfilename, filestozip.
Qed.

(** C7: in [zip], [select] and [delete] a failure while a file is
    expanded or bounds-checked ends the command with a [CommandError]
    that wraps the cause, and a command that fails writes nothing: a file
    is written only once the plan is built from all the input files. *)
Theorem failure_writes_nothing args inverse fuel fs :
  (* select and delete *)
  (∀ e fs', select args inverse fs = (Raise e, fs') → fs' = fs) ∧
  (∀ fr outputfilename e,
     parse_ranges (but_last args) = Ok fr →
     last args = Some outputfilename →
     missing fr outputfilename = false →
     check_output_file outputfilename = Ok () →
     select_files inverse fr [] = Raise e →
     select args inverse fs = (Raise (CommandError (Caused e)), fs)) ∧
  (∀ r fs', select args inverse fs = (r, fs') → fs' ≠ fs →
     ∃ fr outputfilename output,
       parse_ranges (but_last args) = Ok fr ∧
       last args = Some outputfilename ∧
       select_files inverse fr [] = Ok output ∧
       r = Ok () ∧ fs' = fs ++ [(output_path outputfilename, output)]) ∧
  delete args fs = select args true fs ∧
  (* zip *)
  (∀ e fs', zip_pdfs fuel args fs = Some (Raise e, fs') → fs' = fs) ∧
  (∀ fr outputfilename e,
     parse_ranges (but_last args) = Ok fr →
     last args = Some outputfilename →
     missing fr outputfilename = false →
     zip_files fr [] = Raise e →
     zip_pdfs fuel args fs = Some (Raise (CommandError (Caused e)), fs)) ∧
  (∀ r fs', zip_pdfs fuel args fs = Some (r, fs') → fs' ≠ fs →
     ∃ fr outputfilename filestozip,
       parse_ranges (but_last args) = Ok fr ∧
       last args = Some outputfilename ∧
       zip_files fr [] = Ok filestozip ∧
       r = Ok () ∧
       fs' = fs ++ [(output_path outputfilename, interleave filestozip)]).
Proof.
  split_and!.
  - intros e fs' Hsel.
    destruct (select_cases args inverse fs)
      as [[e' He']|(fr & o & output & _ & _ & _ & Hok)]; congruence.
  - intros fr o e Hparse Hlast Hmissing Hcheck Hfiles.
    by rewrite (select_run _ _ _ _ _ Hparse Hlast Hmissing Hcheck), Hfiles.
  - intros r fs' Hsel Hfs'.
    destruct (select_cases args inverse fs)
      as [[e' He']|(fr & o & output & Hparse & Hlast & Hfiles & Hok)].
    + congruence.
    + exists fr, o, output. rewrite Hok in Hsel. by simplify_eq.
  - done.
  - intros e fs' Hzip.
    destruct (zip_pdfs_cases fuel args fs)
      as [Hnone|[[e' He']|(fr & o & output & _ & _ & _ & Hok)]]; congruence.
  - intros fr o e Hparse Hlast Hmissing Hfiles.
    by rewrite (zip_pdfs_run _ _ _ _ _ Hparse Hlast Hmissing), Hfiles.
  - intros r fs' Hzip Hfs'.
    destruct (zip_pdfs_cases fuel args fs)
      as [Hnone|[[e' He']|(fr & o & filestozip & Hparse & Hlast & Hfiles & Hok)]].
    + congruence.
    + congruence.
    + exists fr, o, filestozip. rewrite Hok in Hzip. by simplify_eq.
Qed.

(** [zip] does finish: with the fuel its plan asks for it writes the
    interleaved plan. *)
Lemma zip_pdfs_finishes args fr outputfilename filestozip fs extra :
  parse_ranges (but_last args) = Ok fr →
  last args = Some outputfilename →
  missing fr outputfilename = false →
  zip_files fr [] = Ok filestozip →
  zip_pdfs (enough filestozip + extra) args fs
    = Some (Ok (), fs ++ [(output_path outputfilename, interleave filestozip)]).
Proof.
  intros Hparse Hlast Hmissing Hfiles.
  rewrite (zip_pdfs_run _ _ _ _ _ Hparse Hlast Hmissing), Hfiles.
  unfold round_robin_list. by rewrite drain_start by lia.
Qed.

(** C8 on the code: with no argument at all, [args[-1]] raises
    IndexError before the guard on missing names is reached. *)
Theorem empty_argument_list_index_error fr inverse fuel fs :
  parse_ranges [] = Ok fr →
  select [] inverse fs = (Raise IndexError, fs) ∧
  delete [] fs = (Raise IndexError, fs) ∧
  zip_pdfs fuel [] fs = Some (Raise IndexError, fs).
Proof.
  intros Hparse. unfold Commands.delete, Commands.select, Commands.zip_pdfs.
  simpl. unfold but_last. simpl. by rewrite Hparse.
Qed.

(** With an output name and no input, the guard answers. *)
Lemma no_input_command_error args outputfilename inverse fuel fs :
  parse_ranges (but_last args) = Ok [] →
  last args = Some outputfilename →
  select args inverse fs = (Raise (CommandError BothRequired), fs) ∧
  zip_pdfs fuel args fs = Some (Raise (CommandError BothRequired), fs).
Proof.
  intros Hparse Hlast. unfold Commands.select, Commands.zip_pdfs.
  by rewrite Hparse, Hlast.
Qed.

End Run.

Lemma page_ten_of_three :
  ∃ a p r,
    (p, r) ∈ pagerange_inclusive a ∧
    select (λ _, Ok [InputArgs "a.pdf" {| stream := "a.pdf"; getNumPages := 3 |} [(10, 0)]])
      (λ _, Ok ()) (λ _, false) "out" "/" ["a.pdf"; "10"; "o.pdf"] false []
      = (Raise (CommandError (Caused (CommandError (PageNotFound p (name a))))), []) ∧
    (a, p) = (InputArgs "a.pdf" {| stream := "a.pdf"; getNumPages := 3 |} [(10, 0)], 10).
Proof.
  destruct (inclusive_page_out_of_range
              (λ _, Ok [InputArgs "a.pdf" {| stream := "a.pdf"; getNumPages := 3 |} [(10, 0)]])
              (λ _, Ok ()) (λ _, false) "out" "/"
              ["a.pdf"; "10"; "o.pdf"]
              [InputArgs "a.pdf" {| stream := "a.pdf"; getNumPages := 3 |} [(10, 0)]]
              "o.pdf" [] eq_refl eq_refl eq_refl eq_refl)
    as [Hfail _].
  destruct Hfail as (a & p & r & Ha & Hpr & Hp & Hsel & _).
  - intros Hall. apply Forall_cons_1 in Hall as [Hall _].
    apply Forall_cons_1 in Hall as [Hten _]. unfold in_bounds in Hten. simpl in Hten. lia.
  - exists a, p, r. split; [done|]. split; [done|].
    apply list_elem_of_singleton in Ha. subst a.
    apply list_elem_of_singleton in Hpr. by simplify_eq.
Defined.

Lemma delete_page_ten_of_three :
  delete (λ _, Ok [InputArgs "a.pdf" {| stream := "a.pdf"; getNumPages := 3 |} [(10, 0)]])
    (λ _, Ok ()) (λ _, false) "out" "/" ["a.pdf"; "10"; "o.pdf"] []
  = (Ok (), [("out/o.pdf", [Page "a.pdf" 0 0; Page "a.pdf" 1 0; Page "a.pdf" 2 0])]).
Proof.
  destruct (delete_ignores_out_of_range
              (λ _, Ok [InputArgs "a.pdf" {| stream := "a.pdf"; getNumPages := 3 |} [(10, 0)]])
              (λ _, Ok ()) (λ _, false) "out" "/" ["a.pdf"; "10"; "o.pdf"]
              [InputArgs "a.pdf" {| stream := "a.pdf"; getNumPages := 3 |} [(10, 0)]]
              "o.pdf" [] eq_refl eq_refl eq_refl eq_refl)
    as (plan & Hplan & _ & Hdelete).
  rewrite Hdelete. simpl in Hplan. injection Hplan as <-. reflexivity.
Defined.

Lemma select_page_ten_writes_nothing :
  select (λ _, Ok [InputArgs "a.pdf" {| stream := "a.pdf"; getNumPages := 3 |} [(10, 0)]])
    (λ _, Ok ()) (λ _, false) "out" "/" ["a.pdf"; "10"; "o.pdf"] false []
  = (Raise (CommandError (Caused (CommandError (PageNotFound 10 "a.pdf")))), []).
Proof.
  destruct (failure_writes_nothing
              (λ _, Ok [InputArgs "a.pdf" {| stream := "a.pdf"; getNumPages := 3 |} [(10, 0)]])
              (λ _, Ok ()) (λ _, false) "out" "/" ["a.pdf"; "10"; "o.pdf"] false 0 [])
    as (_ & Hwrap & _).
  exact (Hwrap [InputArgs "a.pdf" {| stream := "a.pdf"; getNumPages := 3 |} [(10, 0)]]
           "o.pdf" (CommandError (PageNotFound 10 "a.pdf"))
           eq_refl eq_refl eq_refl eq_refl eq_refl).
Defined.

Lemma select_no_arguments :
  select (λ _, Ok []) (λ _, Ok ()) (λ _, false) "out" "/" [] false []
    = (Raise IndexError, []) ∧
  delete (λ _, Ok []) (λ _, Ok ()) (λ _, false) "out" "/" [] []
    = (Raise IndexError, []) ∧
  zip_pdfs (λ _, Ok []) (λ _, false) "out" "/" 0 [] []
    = Some (Raise IndexError, []).
Proof.
  exact (empty_argument_list_index_error (λ _, Ok []) (λ _, Ok ()) (λ _, false)
           "out" "/" [] false 0 [] eq_refl).
Defined.

(** The siblings [split] and [info] do answer an empty argument list
    with their [CommandError]. *)
Lemma split_info_no_input destdir sep expand_input_files read_pdf splitext_basename args fs :
  expand_input_files args = [] →
  split destdir sep expand_input_files read_pdf splitext_basename args fs
    = (Raise (CommandError NoInputFiles), fs) ∧
  info expand_input_files args = Raise (CommandError NoInputFiles).
Proof. intros Hnone. unfold split, info. by rewrite Hnone. Qed.

(** *** The width [split] pads to *)
Lemma ceil_log10_from_least fuel :
  ∀ k n,
    0 ≤ k → (k = 0 ∨ 10 ^ (k - 1) < n) → n ≤ 10 ^ (k + Z.of_nat fuel) →
    k ≤ ceil_log10_from fuel k n ∧
    n ≤ 10 ^ ceil_log10_from fuel k n ∧
    (ceil_log10_from fuel k n = 0 ∨ 10 ^ (ceil_log10_from fuel k n - 1) < n).
Proof.
  induction fuel as [|fuel IH]; intros k n Hk Hlow Hhigh; simpl.
  - rewrite Z.add_0_r in Hhigh. split_and!; [lia|done..].
  - case_bool_decide as Hle; [split_and!; [lia|done..]|].
    destruct (IH (k + 1) n) as (? & ? & ?); [lia| | |split_and!; [lia|done..]].
    + right. replace (k + 1 - 1) with k by lia. lia.
    + replace (k + 1 + Z.of_nat fuel) with (k + Z.of_nat (S fuel)) by lia. done.
Qed.

(** [ceil_log10 n] is the least [k] with [n ≤ 10 ^ k]. *)
Lemma ceil_log10_least n :
  0 < n →
  ∃ k, ceil_log10 n = Ok k ∧ 0 ≤ k ∧ n ≤ 10 ^ k ∧ (k = 0 ∨ 10 ^ (k - 1) < n).
Proof.
  intros Hn. unfold ceil_log10. rewrite bool_decide_eq_false_2 by lia.
  eexists. split; [done|].
  apply (ceil_log10_from_least _ 0 n); [done|by left|].
  rewrite Z.add_0_l, Nat2Z.inj_succ, Z2Nat.id by apply Z.log2_nonneg.
  pose proof (Z.log2_spec n Hn) as [_ Hlt].
  assert (2 ^ Z.succ (Z.log2 n) ≤ 10 ^ Z.succ (Z.log2 n)).
  { apply Z.pow_le_mono_l. lia. }
  lia.
Qed.

(** C2 on the code: a 10-page file has a 2-digit page count, yet the
    width [split] computes is ceil(log10(10)) = 1, so its pages are named
    _1 .. _9, _10 and not _01 .. _10. *)
Theorem split_ten_pages_width_one :
  ceil_log10 10 = Ok 1 ∧
  String.length (pretty 10) = 2%nat ∧
  fst <$> (split "out" "/" id (λ f, Ok {| stream := f; getNumPages := 10 |})
             (λ _, ("doc", ".pdf")) ["doc.pdf"] []).2
  = ["out/doc_1.pdf"; "out/doc_2.pdf"; "out/doc_3.pdf"; "out/doc_4.pdf";
     "out/doc_5.pdf"; "out/doc_6.pdf"; "out/doc_7.pdf"; "out/doc_8.pdf";
     "out/doc_9.pdf"; "out/doc_10.pdf"]%string.
Proof. split_and!; reflexivity. Qed.

(** Off the powers of ten the names are as the claim has them. *)
Lemma split_twelve_pages :
  fst <$> (split "out" "/" id (λ f, Ok {| stream := f; getNumPages := 12 |})
             (λ _, ("doc", ".pdf")) ["doc.pdf"] []).2
  = ["out/doc_01.pdf"; "out/doc_02.pdf"; "out/doc_03.pdf"; "out/doc_04.pdf";
     "out/doc_05.pdf"; "out/doc_06.pdf"; "out/doc_07.pdf"; "out/doc_08.pdf";
     "out/doc_09.pdf"; "out/doc_10.pdf"; "out/doc_11.pdf"; "out/doc_12.pdf"]%string.
Proof. reflexivity. Qed.

Lemma split_one_page :
  split "out" "/" id (λ f, Ok {| stream := f; getNumPages := 1 |})
    (λ _, ("doc", ".pdf")) ["doc.pdf"] []
  = (Ok (), [("out/doc_1.pdf"%string, [Page "doc.pdf" 0 0])]).
Proof. reflexivity. Qed.

End Plans.

(** ** More on the round-robin generator *)
Module Merging.
Import Itertools RoundRobin Sequencer.
Section Rounds.
Context {T : Type}.
Implicit Types (l : list T) (ls : list (list T)).

Lemma rounds_nil n : rounds n ([] : list (list T)) = [].
Proof. induction n as [|n IH]; [done|]. simpl. exact IH. Qed.

Lemma rounds_single n l : (length l ≤ n)%nat → rounds n [l] = l.
Proof.
  revert l. induction n as [|n IH]; intros [|v l] Hn; simpl in *; try done; try lia.
  - apply rounds_nil.
  - f_equal. apply IH. lia.
Qed.

Lemma max_list_all_empty ls :
  (max_list (length <$> ls) ≤ 0)%nat → mjoin ls = [].
Proof.
  induction ls as [|[|v l] ls IH]; csimpl; intros Hmax; [done| |lia].
  apply IH. lia.
Qed.

Lemma heads_tails_Permutation ls :
  omap head ls ++ mjoin (omap tail_of ls) ≡ₚ mjoin ls.
Proof.
  induction ls as [|[|v l] ls IH]; csimpl; [done|done|].
  constructor. rewrite <-IH. apply Permutation_app_swap_app.
Qed.

Lemma rounds_Permutation n :
  ∀ ls, (max_list (length <$> ls) ≤ n)%nat → rounds n ls ≡ₚ mjoin ls.
Proof.
  induction n as [|n IH]; intros ls Hmax; simpl.
  - by rewrite max_list_all_empty.
  - rewrite IH by by apply max_list_tails. apply heads_tails_Permutation.
Qed.

(** X1: the generator loses nothing and invents nothing: what it yields
    is a rearrangement of the concatenated inputs, and it is as long as
    they are together. *)
Theorem round_robin_list_Permutation (iterables : list (list T)) (extra : nat) :
  ∃ out,
    round_robin_list (enough iterables + extra) iterables = Some out ∧
    out ≡ₚ mjoin iterables ∧
    length out = sum_list (length <$> iterables).
Proof.
  exists (interleave iterables).
  assert (interleave iterables ≡ₚ mjoin iterables) as Hperm
    by by apply rounds_Permutation.
  split_and!; [apply drain_start; lia|done|].
  rewrite Hperm. clear. induction iterables as [|l ls IH]; csimpl; [done|].
  by rewrite length_app, IH.
Qed.

Lemma omap_lookup_tails ls r :
  omap (λ l, l !! r) (omap tail_of ls) = omap (λ l, l !! S r) ls.
Proof. induction ls as [|[|v l] ls IH]; csimpl; [done|done|]. by rewrite IH. Qed.

Lemma omap_lookup_head ls : omap (λ l, l !! 0%nat) ls = omap head ls.
Proof. induction ls as [|[|v l] ls IH]; csimpl; [done|done|]. by rewrite IH. Qed.

Lemma rounds_columns n :
  ∀ ls, rounds n ls = mjoin ((λ r, omap (λ l, l !! r) ls) <$> seq 0 n).
Proof.
  induction n as [|n IH]; intros ls; [done|].
  simpl. rewrite omap_lookup_head. f_equal.
  rewrite IH, <-fmap_S_seq, <-list_fmap_compose. f_equal.
  apply list_fmap_ext. intros _ r _. simpl. apply omap_lookup_tails.
Qed.

(** X2: the output read by position: round [r] of it holds the elements
    at index [r] of the lists that reach so far, in the order of the
    lists, for [r] from 0 to the greatest length. *)
Theorem round_robin_list_columns (iterables : list (list T)) (extra : nat) :
  round_robin_list (enough iterables + extra) iterables
    = Some (mjoin ((λ r, omap (λ l, l !! r) iterables)
                     <$> seq 0 (max_list (length <$> iterables)))).
Proof. rewrite <-rounds_columns. apply drain_start. lia. Qed.

Lemma rounds_two n :
  ∀ l1 l2,
    (length l1 ≤ n)%nat → (length l2 ≤ n)%nat →
    rounds n [l1; l2]
      = mjoin (zip_with (λ x y, [x; y]) l1 l2)
          ++ drop (length l2) l1 ++ drop (length l1) l2.
Proof.
  induction n as [|n IH]; intros [|x l1] [|y l2] H1 H2; simpl in *; try lia; try done.
  - rewrite rounds_nil. done.
  - rewrite rounds_single by lia. done.
  - rewrite rounds_single by lia. by rewrite app_nil_r.
  - rewrite IH by lia. done.
Qed.

(** X3: of two lists the generator yields the elements in alternation,
    first list first, and then what is left of the longer list. *)
Theorem round_robin_list_two (l1 l2 : list T) (extra : nat) :
  round_robin_list (enough [l1; l2] + extra) [l1; l2]
    = Some (mjoin (zip_with (λ x y, [x; y]) l1 l2)
              ++ drop (length l2) l1 ++ drop (length l1) l2).
Proof.
  rewrite <-(rounds_two (max_list (length <$> [l1; l2]))) by (simpl; lia).
  apply drain_start. lia.
Qed.

Lemma omap_nonempty {B} (f : list T → option B) ls :
  f [] = None → omap f (filter (λ l, l ≠ []) ls) = omap f ls.
Proof.
  intros Hf. induction ls as [|[|v l] ls IH]; [done| |].
  - rewrite filter_cons_False by (intros H; by apply H). csimpl. by rewrite Hf.
  - rewrite filter_cons_True by done. csimpl. by rewrite IH.
Qed.

Lemma max_list_nonempty ls :
  max_list (length <$> filter (λ l, l ≠ []) ls) = max_list (length <$> ls).
Proof.
  induction ls as [|[|v l] ls IH]; [done| |].
  - rewrite filter_cons_False by (intros H; by apply H). done.
  - rewrite filter_cons_True by done. csimpl. by rewrite IH.
Qed.

Lemma cost_nonempty ls : (cost (filter (λ l, l ≠ []) ls) ≤ cost ls)%nat.
Proof.
  induction ls as [|[|v l] ls IH]; [done| |].
  - rewrite filter_cons_False by (intros H; by apply H). rewrite cost_cons. lia.
  - rewrite filter_cons_True by done. rewrite !cost_cons. lia.
Qed.

(** X4: empty input lists change nothing: the generator yields the same
    with or without them. *)
Theorem round_robin_list_skips_empty (iterables : list (list T)) (extra : nat) :
  round_robin_list (enough iterables + extra) (filter (λ l, l ≠ []) iterables)
    = round_robin_list (enough iterables + extra) iterables.
Proof.
  unfold round_robin_list. rewrite !drain_start.
  - unfold interleave. rewrite max_list_nonempty.
    destruct (max_list (length <$> iterables)) as [|n]; [done|].
    simpl. by rewrite !omap_nonempty.
  - lia.
  - pose proof (cost_nonempty iterables). unfold enough. lia.
Qed.

(** X5: of a single list the generator yields that list. *)
Theorem round_robin_list_single (l : list T) (extra : nat) :
  round_robin_list (enough [l] + extra) [l] = Some l.
Proof.
  rewrite <-(rounds_single (max_list (length <$> [l])) l) at 3 by (simpl; lia).
  apply drain_start. lia.
Qed.
End Rounds.
End Merging.

(** ** More on select, delete and zip *)
Module Composition.
Import RoundRobin Sequencer Commands Plans Merging.

(** X6: [select] and [delete] take their input files one after the
    other onto one writer: the plan of a list of inputs is the plan of
    its first part continued by the plan of the rest, a failure in the
    first part is the failure of the whole, and pages once added stay in
    front, in their order. *)
Theorem select_files_app inverse (fr1 fr2 : list input_args) (output : list page) :
  select_files inverse (fr1 ++ fr2) output
    = match select_files inverse fr1 output with
      | Ok output1 => select_files inverse fr2 output1
      | Raise e => Raise e
      end
  ∧ (∀ output', select_files inverse fr1 output = Ok output' →
       output `prefix_of` output').
Proof.
  split.
  - revert output. induction fr1 as [|a fr1 IH]; intros output; simpl; [done|].
    destruct (select_pages a (pagerange inverse a) output); [apply IH|done].
  - revert output. induction fr1 as [|a fr1 IH]; intros output output' Hok; simpl in *.
    + by simplify_eq.
    + destruct (select_pages a (pagerange inverse a) output) as [output1|] eqn:Ha; [|done].
      apply select_pages_Ok in Ha as [_ ->].
      etrans; [|by apply IH]. by apply prefix_app_r.
Qed.

Lemma emit_same_pdf a b : pdf a = pdf b → emit a = emit b.
Proof. intros Hpdf. unfold emit. by rewrite Hpdf. Qed.

Lemma in_bounds_same_pdf a b prs :
  pdf a = pdf b → Forall (in_bounds a) prs → Forall (in_bounds b) prs.
Proof. intros Hpdf. unfold in_bounds. by rewrite Hpdf. Qed.

(** X7: what [delete] keeps depends on the expression only through the
    set of page numbers it names: their order, their repetition and their
    rotations change nothing. *)
Theorem delete_by_set_of_numbers (a b : input_args) (output : list page) :
  pdf a = pdf b →
  (∀ p, p ∈ excluded a ↔ p ∈ excluded b) →
  select_pages a (pagerange true a) output
    = select_pages b (pagerange true b) output.
Proof.
  intros Hpdf Hset.
  assert (pagerange_exclusive a = pagerange_exclusive b) as Heq.
  { unfold pagerange_exclusive. rewrite Hpdf. f_equal.
    apply list_filter_iff. intros p. unfold excluded in Hset. by rewrite Hset. }
  simpl. rewrite !select_pages_in_bounds by apply pagerange_exclusive_in_bounds.
  by rewrite Heq, (emit_same_pdf a b).
Qed.

Lemma delete_by_set_of_numbers_example :
  select_pages
    (InputArgs "a.pdf" {| stream := "a.pdf"; getNumPages := 4 |} [(3, 90); (1, 0); (3, 0)])
    (pagerange true
       (InputArgs "a.pdf" {| stream := "a.pdf"; getNumPages := 4 |} [(3, 90); (1, 0); (3, 0)])) []
  = select_pages
      (InputArgs "a.pdf" {| stream := "a.pdf"; getNumPages := 4 |} [(1, 0); (3, 0)])
      (pagerange true
         (InputArgs "a.pdf" {| stream := "a.pdf"; getNumPages := 4 |} [(1, 0); (3, 0)])) [].
Proof.
  apply delete_by_set_of_numbers; [reflexivity|].
  intros p. unfold excluded. simpl. rewrite !elem_of_cons. tauto.
Defined.

(** X8: an expression that names every page of the file leaves [delete]
    nothing to emit for it: the writer is left as it was, and no error is
    raised. *)
Theorem delete_every_page (a : input_args) (output : list page) :
  (∀ p, 1 ≤ p ≤ getNumPages (pdf a) → p ∈ excluded a) →
  select_pages a (pagerange true a) output = Ok output.
Proof.
  intros Hall. simpl.
  rewrite select_pages_in_bounds by apply pagerange_exclusive_in_bounds.
  rewrite pagerange_exclusive_included.
  assert (included a = []) as ->.
  { apply elem_of_nil_inv. intros p [Hp Hnot]%elem_of_included. by apply Hnot, Hall. }
  by rewrite app_nil_r.
Qed.

Lemma delete_every_page_example :
  select_pages
    (InputArgs "a.pdf" {| stream := "a.pdf"; getNumPages := 3 |} [(3, 0); (2, 0); (1, 0)])
    (pagerange true
       (InputArgs "a.pdf" {| stream := "a.pdf"; getNumPages := 3 |} [(3, 0); (2, 0); (1, 0)]))
    [Page "b.pdf" 0 0]
  = Ok [Page "b.pdf" 0 0].
Proof.
  apply delete_every_page. intros p Hp. simpl in Hp. unfold excluded. simpl.
  assert (p = 1 ∨ p = 2 ∨ p = 3) as Hcases by lia.
  destruct Hcases as [Hp'|[Hp'|Hp']]; rewrite Hp', !elem_of_cons; tauto.
Defined.

(** X9: [select] and [delete] with the same expression share the pages
    of the file between them: when the expression names pages, each once
    and each inside the document, the page numbers of the two plans
    together are the pages 1..page_count, each exactly once. *)
Theorem select_delete_partition (a : input_args) :
  pages a ≠ [] →
  NoDup (excluded a) →
  Forall (in_bounds a) (pages a) →
  ∃ kept dropped,
    select_pages a (pagerange false a) [] = Ok kept ∧
    select_pages a (pagerange true a) [] = Ok dropped ∧
    (fst <$> described kept) ++ (fst <$> described dropped)
      ≡ₚ seqZ 1 (getNumPages (pdf a)).
Proof.
  intros Hnamed Hnodup Hall.
  exists (emit a <$> pagerange_inclusive a), (emit a <$> pagerange_exclusive a).
  assert (Forall (in_bounds a) (pagerange_inclusive a)) as Hall'
    by by rewrite pagerange_inclusive_named.
  split_and!.
  - change (pagerange false a) with (pagerange_inclusive a).
    by rewrite select_pages_in_bounds.
  - change (pagerange true a) with (pagerange_exclusive a).
    by rewrite select_pages_in_bounds by apply pagerange_exclusive_in_bounds.
  - rewrite !described_emit, pagerange_inclusive_named by done.
    fold (excluded a) (included a).
    apply NoDup_Permutation.
    + apply NoDup_app. split_and!; [done| |].
      * intros p Hp [_ Hnot]%elem_of_included. done.
      * rewrite included_unfold. apply NoDup_filter, NoDup_seqZ.
    + apply NoDup_seqZ.
    + intros p. rewrite elem_of_app, elem_of_included, elem_of_seqZ. split.
      * intros [Hp|[? _]]; [|lia].
        apply list_elem_of_fmap in Hp as ([q r] & -> & Hqr).
        rewrite Forall_forall in Hall. specialize (Hall _ Hqr).
        unfold in_bounds in Hall. simpl in *. lia.
      * intros Hp. destruct (decide (p ∈ excluded a)); [by left|].
        right. split; [lia|done].
Qed.

Lemma select_delete_partition_example :
  ∃ kept dropped,
    select_pages
      (InputArgs "a.pdf" {| stream := "a.pdf"; getNumPages := 4 |} [(3, 90); (1, 0)])
      [(3, 90); (1, 0)] [] = Ok kept ∧
    select_pages
      (InputArgs "a.pdf" {| stream := "a.pdf"; getNumPages := 4 |} [(3, 90); (1, 0)])
      (pagerange true
         (InputArgs "a.pdf" {| stream := "a.pdf"; getNumPages := 4 |} [(3, 90); (1, 0)])) []
      = Ok dropped ∧
    (fst <$> described kept) ++ (fst <$> described dropped) ≡ₚ [1; 2; 3; 4].
Proof.
  apply (select_delete_partition
           (InputArgs "a.pdf" {| stream := "a.pdf"; getNumPages := 4 |} [(3, 90); (1, 0)])).
  - done.
  - unfold excluded. simpl. repeat constructor; rewrite ?elem_of_cons; [|apply not_elem_of_nil].
    intros [?|Hnil]; [done|by apply elem_of_nil in Hnil].
  - repeat constructor; unfold in_bounds; simpl; lia.
Defined.
(** X17: a page named more than once is one page object, so what
    [select] writes for each of its occurrences carries all the rotations
    the expression asks of that page number, added up (on top of what the
    object was turned by before), and not the rotation of the occurrence. *)
Theorem select_rotations_add_up (a : input_args) (output : list Z) (turned : gmap Z Z) :
  Forall (in_bounds a) (pagerange_inclusive a) →
  ∃ added turned',
    select_pages_in_place a (pagerange false a) output turned
      = Ok (output ++ added, turned') ∧
    described (written a added turned')
      = (λ pr, (pr.1, default 0 (turned !! (pr.1 - 1))
                        + asked (pagerange_inclusive a) pr.1))
          <$> pagerange_inclusive a.
Proof.
  intros Hall.
  destruct (select_pages_in_place_in_bounds a _ Hall output turned)
    as (turned' & Hsel & Hturned).
  exists ((λ pr, pr.1 - 1) <$> pagerange_inclusive a), turned'.
  split; [exact Hsel|].
  unfold described, written. rewrite <-!list_fmap_compose.
  apply list_fmap_ext. intros _ [p r] _. simpl.
  rewrite Hturned. f_equal; [lia|]. do 2 f_equal. lia.
Qed.

Lemma select_rotations_add_up_example :
  ∃ added turned',
    select_pages_in_place
      (InputArgs "a.pdf" {| stream := "a.pdf"; getNumPages := 3 |} [(2, 90); (1, 0); (2, 180)])
      [(2, 90); (1, 0); (2, 180)] [] ∅ = Ok (added, turned') ∧
    described
      (written
         (InputArgs "a.pdf" {| stream := "a.pdf"; getNumPages := 3 |} [(2, 90); (1, 0); (2, 180)])
         added turned')
    = [(2, 270); (1, 0); (2, 270)].
Proof.
  destruct (select_rotations_add_up
              (InputArgs "a.pdf" {| stream := "a.pdf"; getNumPages := 3 |}
                 [(2, 90); (1, 0); (2, 180)]) [] ∅)
    as (added & turned' & Hsel & Hwritten).
  - repeat constructor; unfold in_bounds; simpl; lia.
  - exists added, turned'. split; [exact Hsel|]. rewrite Hwritten. by vm_compute.
Defined.

Section Run.
Variable parse_ranges : list string → result (list input_args).
Variable check_output_file : string → result unit.
Variable isabs : string → bool.
Variable destdir : string.
Variable sep : string.

Abbreviation select := (select parse_ranges check_output_file isabs destdir sep).
Abbreviation zip_pdfs := (zip_pdfs parse_ranges isabs destdir sep).
Abbreviation output_path := (output_path isabs destdir sep).

(** X10: the error of the inclusive path is that of the first offender:
    when the files before one are all within bounds, and in that one the
    pages before one are, [select] and [zip] report that page and that
    file, whatever comes after, and write nothing. *)
Theorem first_offender_is_reported args good a rest pre p r post outputfilename fuel fs :
  parse_ranges (but_last args) = Ok (good ++ a :: rest) →
  last args = Some outputfilename →
  outputfilename ≠ ""%string →
  check_output_file outputfilename = Ok () →
  Forall (λ a, Forall (in_bounds a) (pagerange_inclusive a)) good →
  pagerange_inclusive a = pre ++ (p, r) :: post →
  Forall (in_bounds a) pre →
  ¬ (1 ≤ p ≤ getNumPages (pdf a)) →
  select args false fs
    = (Raise (CommandError (Caused (CommandError (PageNotFound p (name a))))), fs) ∧
  zip_pdfs fuel args fs
    = Some (Raise (CommandError (Caused (CommandError (PageNotFound p (name a))))), fs).
Proof.
  intros Hparse Hlast Hout Hcheck Hgood Ha Hpre Hp.
  assert (missing (good ++ a :: rest) outputfilename = false) as Hmissing.
  { unfold missing. rewrite !bool_decide_eq_false_2; [done..|]. by destruct good. }
  split.
  - rewrite (select_run _ _ _ _ _ _ _ _ _ _ Hparse Hlast Hmissing Hcheck).
    by rewrite (select_files_out_of_bounds false good a rest pre p r post).
  - rewrite (zip_pdfs_run _ _ _ _ _ _ _ _ _ Hparse Hlast Hmissing).
    by rewrite (zip_files_out_of_bounds good a rest pre p r post).
Qed.

Lemma mjoin_bind (fr : list input_args) (f : input_args → list page) :
  mjoin (f <$> fr) = fr ≫= f.
Proof. induction fr as [|a fr IH]; csimpl; [done|]. by rewrite IH. Qed.

(** X11: [zip] emits the pages [select] emits for the same arguments,
    each as often, only in another order: with every page index within
    bounds both commands write one file, and the plan of one is a
    rearrangement of the plan of the other. *)
Theorem zip_rearranges_select args fr outputfilename fs :
  parse_ranges (but_last args) = Ok fr →
  last args = Some outputfilename →
  missing fr outputfilename = false →
  check_output_file outputfilename = Ok () →
  Forall (λ a, Forall (in_bounds a) (pagerange_inclusive a)) fr →
  ∃ selected zipped fuel,
    select args false fs
      = (Ok (), fs ++ [(output_path outputfilename, selected)]) ∧
    (∀ extra, zip_pdfs (fuel + extra) args fs
       = Some (Ok (), fs ++ [(output_path outputfilename, zipped)])) ∧
    zipped ≡ₚ selected.
Proof.
  intros Hparse Hlast Hmissing Hcheck Hall.
  exists (fr ≫= λ a, emit a <$> pagerange_inclusive a),
         (interleave ((λ a, emit a <$> pagerange_inclusive a) <$> fr)),
         (enough ((λ a, emit a <$> pagerange_inclusive a) <$> fr)).
  split_and!.
  - rewrite (select_run _ _ _ _ _ _ _ _ _ _ Hparse Hlast Hmissing Hcheck).
    by rewrite (select_files_in_bounds false) by done.
  - intros extra.
    apply (zip_pdfs_finishes _ _ _ _ _ _ _ _ _ _ Hparse Hlast Hmissing).
    by rewrite zip_files_in_bounds.
  - rewrite <-mjoin_bind. by apply rounds_Permutation.
Qed.

(** X12: [zip] of a single input is [select] of it: with its page
    indices within bounds both commands write the same plan. *)
Theorem zip_of_one_file_is_select args a outputfilename fs extra :
  parse_ranges (but_last args) = Ok [a] →
  last args = Some outputfilename →
  outputfilename ≠ ""%string →
  check_output_file outputfilename = Ok () →
  Forall (in_bounds a) (pagerange_inclusive a) →
  zip_pdfs (enough [emit a <$> pagerange_inclusive a] + extra) args fs
    = Some (select args false fs).
Proof.
  intros Hparse Hlast Hout Hcheck Hall.
  assert (missing [a] outputfilename = false) as Hmissing.
  { unfold missing. by rewrite !bool_decide_eq_false_2. }
  assert (Forall (λ a, Forall (in_bounds a) (pagerange_inclusive a)) [a]) as Hall'
    by by constructor.
  rewrite (select_run _ _ _ _ _ _ _ _ _ _ Hparse Hlast Hmissing Hcheck).
  rewrite (select_files_in_bounds false [a] [] Hall').
  rewrite (zip_pdfs_finishes _ _ _ _ _ _ _ _ _ _ Hparse Hlast Hmissing
             (zip_files_in_bounds [a] [] Hall')).
  change ([] ++ ((λ a, emit a <$> pagerange_inclusive a) <$> [a]))
    with [emit a <$> pagerange_inclusive a].
  unfold interleave. rewrite rounds_single by (simpl; lia).
  csimpl. by rewrite app_nil_r.
Qed.
End Run.

Lemma first_offender_example :
  select
    (λ _, Ok [InputArgs "a.pdf" {| stream := "a.pdf"; getNumPages := 3 |} [];
              InputArgs "b.pdf" {| stream := "b.pdf"; getNumPages := 3 |} [(1, 0); (7, 0); (9, 0)];
              InputArgs "c.pdf" {| stream := "c.pdf"; getNumPages := 3 |} [(5, 0)]])
    (λ _, Ok ()) (λ _, false) "out" "/" ["a.pdf"; "b.pdf"; "c.pdf"; "o.pdf"] false []
  = (Raise (CommandError (Caused (CommandError (PageNotFound 7 "b.pdf")))), []).
Proof.
  refine (proj1 (first_offender_is_reported _ (λ _, Ok ()) (λ _, false) "out" "/"
    ["a.pdf"; "b.pdf"; "c.pdf"; "o.pdf"]
    [InputArgs "a.pdf" {| stream := "a.pdf"; getNumPages := 3 |} []]
    (InputArgs "b.pdf" {| stream := "b.pdf"; getNumPages := 3 |} [(1, 0); (7, 0); (9, 0)])
    [InputArgs "c.pdf" {| stream := "c.pdf"; getNumPages := 3 |} [(5, 0)]]
    [(1, 0)] 7 0 [(9, 0)] "o.pdf" 0 [] eq_refl eq_refl _ eq_refl _ eq_refl _ _)).
  - done.
  - constructor; [|constructor].
    rewrite pagerange_inclusive_empty by done.
    apply all_pages_in_bounds, Forall_seqZ. simpl. lia.
  - repeat constructor; unfold in_bounds; simpl; lia.
  - simpl. lia.
Defined.

Lemma zip_rearranges_select_example :
  ∃ selected zipped fuel,
    select
      (λ _, Ok [InputArgs "a.pdf" {| stream := "a.pdf"; getNumPages := 3 |} [];
                InputArgs "b.pdf" {| stream := "b.pdf"; getNumPages := 2 |} []])
      (λ _, Ok ()) (λ _, false) "out" "/" ["a.pdf"; "b.pdf"; "o.pdf"] false []
      = (Ok (), [] ++ [("out/o.pdf"%string, selected)]) ∧
    (∀ extra,
       zip_pdfs
         (λ _, Ok [InputArgs "a.pdf" {| stream := "a.pdf"; getNumPages := 3 |} [];
                   InputArgs "b.pdf" {| stream := "b.pdf"; getNumPages := 2 |} []])
         (λ _, false) "out" "/" (fuel + extra) ["a.pdf"; "b.pdf"; "o.pdf"] []
       = Some (Ok (), [] ++ [("out/o.pdf"%string, zipped)])) ∧
    zipped ≡ₚ selected.
Proof.
  refine (zip_rearranges_select _ (λ _, Ok ()) (λ _, false) "out" "/"
    ["a.pdf"; "b.pdf"; "o.pdf"]
    [InputArgs "a.pdf" {| stream := "a.pdf"; getNumPages := 3 |} [];
     InputArgs "b.pdf" {| stream := "b.pdf"; getNumPages := 2 |} []]
    "o.pdf" [] eq_refl eq_refl eq_refl eq_refl _).
  repeat (constructor; [rewrite pagerange_inclusive_empty by done;
                        apply all_pages_in_bounds, Forall_seqZ; simpl; lia|]).
  constructor.
Defined.

Lemma zip_of_one_file_example :
  zip_pdfs
    (λ _, Ok [InputArgs "a.pdf" {| stream := "a.pdf"; getNumPages := 3 |} [(2, 90); (1, 0)]])
    (λ _, false) "out" "/" 5 ["a.pdf"; "o.pdf"] []
  = Some (select
      (λ _, Ok [InputArgs "a.pdf" {| stream := "a.pdf"; getNumPages := 3 |} [(2, 90); (1, 0)]])
      (λ _, Ok ()) (λ _, false) "out" "/" ["a.pdf"; "o.pdf"] false []).
Proof.
  refine (zip_of_one_file_is_select _ (λ _, Ok ()) (λ _, false) "out" "/"
    ["a.pdf"; "o.pdf"]
    (InputArgs "a.pdf" {| stream := "a.pdf"; getNumPages := 3 |} [(2, 90); (1, 0)])
    "o.pdf" [] 0 eq_refl eq_refl _ eq_refl _).
  - done.
  - repeat constructor; unfold in_bounds; simpl; lia.
Defined.
End Composition.

(** ** More on split *)
Module Bursting.
Import Commands Plans.

(** Names the template leaves as they are: without a per cent sign. *)
Fixpoint percent_free (s : string) : Prop :=
  match s with
  | EmptyString => True
  | String c s => c ≠ "%"%char ∧ percent_free s
  end.

(** <base>_<index padded with zeros to the width><ext> *)
Definition outputname (base : string) (width : Z) (ext : string) (k : Z) : string :=
  base +:+ "_" +:+ padded true (Z.to_nat width) (pretty k) +:+ ext.


Definition width_of (n : Z) : Z :=
  match ceil_log10 n with Ok width => width | Raise _ => 0 end.

Section Burst.
Variable destdir : string.
Variable sep : string.
Variable expand_input_files : list string → list string.
Variable read_pdf : string → result PdfFileReader.
Variable splitext_basename : string → string * string.

(** A file [split] can name the pages of: no per cent sign in its name,
    and between 1 and 10^9 pages. *)
Definition plain (f : string) (input_file : PdfFileReader) : Prop :=
  percent_free (splitext_basename f).1 ∧ percent_free (splitext_basename f).2 ∧
  1 ≤ getNumPages input_file ≤ 10 ^ 9.

(** The files [split] writes for one input: one per page, in page order. *)
Definition burst (f : string) (input_file : PdfFileReader) : list (string * list page) :=
  (λ pageno,
     (destdir +:+ sep +:+
        outputname (splitext_basename f).1 (width_of (getNumPages input_file))
          (splitext_basename f).2 (pageno + 1),
      [getPage input_file pageno]))
    <$> seqZ 0 (getNumPages input_file).

Abbreviation split := (split destdir sep expand_input_files read_pdf splitext_basename).
Abbreviation split_inputs := (split_inputs destdir sep splitext_basename).
Abbreviation read_inputs := (read_inputs read_pdf).

Lemma append_empty (r : string) : "" +:+ r = r.
Proof. reflexivity. Qed.

Lemma append_String c (s r : string) : String c s +:+ r = String c (s +:+ r).
Proof. reflexivity. Qed.

Lemma format_from_text c used k rest :
  c ≠ "%"%char →
  format_from Text used k (String c rest)
    = match format_from Text used k rest with
      | Ok t => Ok (String c t)
      | Raise e => Raise e
      end.
Proof. intros Hc. simpl. by rewrite bool_decide_eq_false_2. Qed.

Lemma format_text s :
  ∀ used k rest,
    percent_free s →
    format_from Text used k (s +:+ rest)
      = match format_from Text used k rest with
        | Ok t => Ok (s +:+ t)
        | Raise e => Raise e
        end.
Proof.
  induction s as [|c s IH]; intros used k rest Hfree.
  - rewrite append_empty. by destruct (format_from Text used k rest).
  - simpl in Hfree. destruct Hfree as [Hc Hfree].
    rewrite append_String, format_from_text, IH by done.
    by destruct (format_from Text used k rest).
Qed.

Lemma format_tail ext k :
  percent_free ext → format_from Text true k ext = Ok ext.
Proof.
  induction ext as [|c ext IH]; intros Hfree; [done|].
  simpl in Hfree. destruct Hfree as [Hc Hfree].
  by rewrite format_from_text, IH.
Qed.

Ltac directive_case :=
  match goal with
  | |- context [pretty ?w +:+ _] =>
      let s := eval vm_compute in (pretty w) in change (pretty w) with s
  end;
  rewrite !append_String, !append_empty; simpl;
  rewrite format_tail by done; reflexivity.

(** The directive [split] puts in its template, for a width of one
    digit: the index, padded with zeros to the width. *)
Lemma format_directive width ext k :
  0 ≤ width ≤ 9 → percent_free ext →
  format_from Text false k ("%0" +:+ pretty width +:+ "d" +:+ ext)
    = Ok (padded true (Z.to_nat width) (pretty k) +:+ ext).
Proof.
  intros Hwidth Hfree.
  assert (width = 0 ∨ width = 1 ∨ width = 2 ∨ width = 3 ∨ width = 4 ∨
          width = 5 ∨ width = 6 ∨ width = 7 ∨ width = 8 ∨ width = 9)
    as Hcases by lia.
  repeat (destruct Hcases as [Hcase|Hcases]; [rewrite Hcase; directive_case|]).
  rewrite Hcases. directive_case.
Qed.

Lemma format_template base width ext k :
  percent_free base → percent_free ext → 0 ≤ width ≤ 9 →
  format (output_template base width ext) k = Ok (outputname base width ext k).
Proof.
  intros Hbase Hext Hwidth. unfold format, output_template, outputname.
  rewrite (format_text base) by done.
  rewrite (format_text "_") by (simpl; done).
  by rewrite format_directive.
Qed.

Lemma split_pages_plain input_file base width ext pagenos :
  percent_free base → percent_free ext → 0 ≤ width ≤ 9 →
  ∀ fs,
    split_pages destdir sep input_file (output_template base width ext) pagenos fs
      = (Ok (),
         fs ++ ((λ pageno,
                   (destdir +:+ sep +:+ outputname base width ext (pageno + 1),
                    [getPage input_file pageno])) <$> pagenos)).
Proof.
  intros Hbase Hext Hwidth.
  induction pagenos as [|pageno pagenos IH]; intros fs; simpl.
  - by rewrite app_nil_r.
  - rewrite format_template by done. rewrite IH.
    unfold write_pdf. by rewrite <-app_assoc.
Qed.

Lemma plain_width n :
  1 ≤ n ≤ 10 ^ 9 → ∃ width, ceil_log10 n = Ok width ∧ 0 ≤ width ≤ 9.
Proof.
  intros Hn.
  destruct (ceil_log10_least n) as (width & Hwidth & Hnonneg & _ & Hleast); [lia|].
  exists width. split; [done|]. split; [done|].
  destruct Hleast as [->|Hleast]; [lia|].
  assert (10 ^ (width - 1) < 10 ^ 9) as Hlt by lia.
  apply Z.pow_lt_mono_r_iff in Hlt; lia.
Qed.

Lemma split_inputs_cons files input_file inputs filecount fs :
  split_inputs files (input_file :: inputs) filecount fs
    = match files !! filecount with
      | None => (Raise IndexError, fs)
      | Some f =>
          match ceil_log10 (getNumPages input_file) with
          | Raise e => (Raise e, fs)
          | Ok width =>
              match split_pages destdir sep input_file
                      (output_template (splitext_basename f).1 width
                         (splitext_basename f).2)
                      (range 0 (getNumPages input_file)) fs with
              | (Ok _, fs) => split_inputs files inputs (S filecount) fs
              | (Raise e, fs) => (Raise e, fs)
              end
          end
      end.
Proof.
  simpl. destruct (files !! filecount) as [f|]; [|done].
  by destruct (splitext_basename f).
Qed.

(** The inputs [split] can name are burst one after the other. *)
Lemma split_inputs_plain files names good more :
  Forall2 plain names good →
  ∀ filecount fs,
    (∀ j f, names !! j = Some f → files !! (filecount + j)%nat = Some f) →
    split_inputs files (good ++ more) filecount fs
      = split_inputs files more (filecount + length good)%nat
          (fs ++ mjoin (zip_with burst names good)).
Proof.
  induction 1 as [|f input_file names good Hplain _ IH]; intros filecount fs Hfiles.
  - simpl. by rewrite Nat.add_0_r, app_nil_r.
  - destruct Hplain as (Hbase & Hext & Hn).
    destruct (plain_width _ Hn) as (width & Hwidth & Hdigit).
    rewrite <-app_comm_cons, split_inputs_cons.
    rewrite <-(Nat.add_0_r filecount) at 1. rewrite (Hfiles 0%nat f eq_refl).
    rewrite Hwidth, split_pages_plain by done.
    rewrite IH.
    + simpl. f_equal; [lia|]. rewrite <-app_assoc. do 2 f_equal.
      unfold burst, width_of, range. rewrite Hwidth. by rewrite Z.sub_0_r.
    + intros j g Hj. replace (S filecount + j)%nat with (filecount + S j)%nat by lia.
      by apply Hfiles.
Qed.

Lemma read_inputs_all files inputs :
  Forall2 (λ f input_file, read_pdf f = Ok input_file) files inputs →
  ∀ sofar, read_inputs files sofar = Ok (sofar ++ inputs).
Proof.
  induction 1 as [|f input_file files inputs Hf _ IH]; intros sofar; simpl.
  - by rewrite app_nil_r.
  - rewrite Hf, IH. by rewrite <-app_assoc.
Qed.

Lemma read_inputs_failure good f rest e :
  Forall (λ g, ∃ input_file, read_pdf g = Ok input_file) good →
  read_pdf f = Raise e →
  ∀ sofar, read_inputs (good ++ f :: rest) sofar = Raise e.
Proof.
  intros Hgood Hf.
  induction Hgood as [|g good [input_file Hg] _ IH]; intros sofar; simpl.
  - by rewrite Hf.
  - rewrite Hg. apply IH.
Qed.

(** X13: [split] reads every input before it writes anything: when the
    reading of one fails, the command raises a [CommandError] that wraps
    the first failure, and no file is written. *)
Theorem split_read_failure args good f rest e fs :
  expand_input_files args = good ++ f :: rest →
  Forall (λ g, ∃ input_file, read_pdf g = Ok input_file) good →
  read_pdf f = Raise e →
  split args fs = (Raise (CommandError (Caused e)), fs).
Proof.
  intros Hfiles Hgood Hf. unfold Commands.split. rewrite Hfiles.
  rewrite (read_inputs_failure good f rest e Hgood Hf).
  by destruct good.
Qed.

(** X14: for inputs without a per cent sign in their name and with 1 to
    10^9 pages, [split] writes one single-page file per page, file after
    file and page after page, named <base>_<index><ext> in the
    destination directory, the index counted from 1 and padded with zeros
    to the width computed from the page count. *)
Theorem split_writes_every_page args files inputs fs :
  expand_input_files args = files →
  files ≠ [] →
  Forall2 (λ f input_file, read_pdf f = Ok input_file) files inputs →
  Forall2 plain files inputs →
  split args fs = (Ok (), fs ++ mjoin (zip_with burst files inputs)).
Proof.
  intros Hfiles Hsome Hread Hplain. unfold Commands.split. rewrite Hfiles.
  rewrite (read_inputs_all files inputs Hread). simpl.
  destruct files as [|f files']; [done|].
  rewrite <-(app_nil_r inputs) at 1.
  rewrite (split_inputs_plain (f :: files') (f :: files') inputs [] Hplain 0 fs);
    [done|]. by intros j g Hj.
Qed.

(** X15: a document without pages stops [split] half way: the pages of
    the inputs before it are written already, and the error is the bare
    ValueError of the logarithm, not a [CommandError]. *)
Theorem split_empty_document args names f rest good empty more fs :
  expand_input_files args = names ++ f :: rest →
  Forall2 (λ f input_file, read_pdf f = Ok input_file)
    (names ++ f :: rest) (good ++ empty :: more) →
  Forall2 plain names good →
  getNumPages empty ≤ 0 →
  split args fs = (Raise ValueError, fs ++ mjoin (zip_with burst names good)).
Proof.
  intros Hfiles Hread Hplain Hempty. unfold Commands.split. rewrite Hfiles.
  rewrite (read_inputs_all _ _ Hread). simpl.
  pose proof (Forall2_length _ _ _ Hplain) as Hlen.
  rewrite (split_inputs_plain (names ++ f :: rest) names good (empty :: more) Hplain 0 fs).
  - rewrite split_inputs_cons. simpl.
    rewrite <-Hlen, list_lookup_middle by done.
    unfold ceil_log10. rewrite bool_decide_eq_true_2 by done.
    by destruct names.
  - intros j g Hj. simpl. by apply lookup_app_l_Some.
Qed.

End Burst.



Lemma split_read_failure_example :
  split "out" "/" id
    (λ f, if bool_decide (f = "b.pdf"%string) then Raise (LibraryError "unreadable")
          else Ok {| stream := f; getNumPages := 2 |})
    (λ f, (f, ".pdf"%string)) ["a.pdf"; "b.pdf"; "c.pdf"]%string []
  = (Raise (CommandError (Caused (LibraryError "unreadable"))), []).
Proof.
  refine (split_read_failure "out" "/" id _ _ ["a.pdf"; "b.pdf"; "c.pdf"]%string
            ["a.pdf"%string] "b.pdf" ["c.pdf"%string] _ [] eq_refl _ eq_refl).
  constructor; [|constructor]. by eexists.
Defined.

Lemma split_writes_every_page_example :
  split "out" "/" id (λ f, Ok {| stream := f; getNumPages := 2 |})
    (λ f, ("doc"%string, ".pdf"%string)) ["doc.pdf"%string] []
  = (Ok (),
     [("out/doc_1.pdf"%string, [Page "doc.pdf" 0 0]);
      ("out/doc_2.pdf"%string, [Page "doc.pdf" 1 0])]).
Proof.
  refine (split_writes_every_page "out" "/" id _ (λ f, ("doc"%string, ".pdf"%string))
            ["doc.pdf"%string] ["doc.pdf"%string]
            [{| stream := "doc.pdf"; getNumPages := 2 |}] []
            eq_refl _ _ _).
  - done.
  - by repeat constructor.
  - repeat constructor; simpl; (done || lia).
Defined.

Lemma split_empty_document_example :
  split "out" "/" id
    (λ f, Ok {| stream := f;
                getNumPages := if bool_decide (f = "b.pdf"%string) then 0 else 2 |})
    (λ f, ("doc"%string, ".pdf"%string)) ["a.pdf"; "b.pdf"]%string []
  = (Raise ValueError,
     [("out/doc_1.pdf"%string, [Page "a.pdf" 0 0]);
      ("out/doc_2.pdf"%string, [Page "a.pdf" 1 0])]).
Proof.
  refine (split_empty_document "out" "/" id _ (λ f, ("doc"%string, ".pdf"%string))
            ["a.pdf"; "b.pdf"]%string ["a.pdf"%string] "b.pdf" []
            [{| stream := "a.pdf"; getNumPages := 2 |}]
            {| stream := "b.pdf"; getNumPages := 0 |} [] []
            eq_refl _ _ _).
  - by repeat constructor.
  - repeat constructor; simpl; (done || lia).
  - simpl. lia.
Defined.
End Bursting.
